(** * Transaction inputs: funding and input filling

    A shallow embedding of [transaction/txinput.go] (package [transaction]
    of the Go SDK) and the properties of its funding loop, its input-filling
    loop and its signature-hash helpers.

    Conventions of the embedding.
    - Go's [uint64] and [uint32] are [Z] with the wrap-around written out
      ([wrap64], [wrap32]); a byte is a [Z] below 256.
    - A slice of pointers (the inputs, the UTXOs a source returns) is a list
      of options:
      [None] is the nil pointer.  Each slot holds its own record; where a
      store through a pointer matters, the module [Shared] keeps the inputs
      in a store and the slots hold addresses, which two slots may share.
    - A method that mutates its receiver takes the transaction and returns
      the transaction it leaves behind together with a [result].
    - A Go run-time panic (index out of range, nil dereference) is the
      [Panic] result: it is not an [error] value and no caller in this file
      recovers from it. *)

From Stdlib Require Import ZArith Lia String Ascii.
From stdpp Require Import base tactics option list functions.

Local Open Scope Z_scope.

(** ** Machine integers and bytes *)

Definition byte := Z.
Definition Script := list byte.

Definition wrap64 (z : Z) : Z := z mod 2 ^ 64.
Definition wrap32 (z : Z) : Z := z mod 2 ^ 32.
Definition wrap8 (z : Z) : Z := z mod 2 ^ 8.

(** ** Errors, panics and results *)

(** The error values that travel through this file.  [ErrNoUTXO],
    [ErrInsufficientFunds], [ErrNoUnlocker] and [ErrInvalidTxID] are the
    package's sentinels; [Errorf] is [fmt.Errorf] with one [%d] argument;
    [InvalidByteError] and [ErrLength] are those of [encoding/hex];
    [External] is an error value made by a collaborator (a UTXO source, an
    unlocker, a fee estimator); [Wrapped] is an error that wraps another one,
    as [fmt.Errorf] with [%w] or [errors.Wrap] build. *)
Inductive error : Type :=
| ErrNoUTXO
| ErrInsufficientFunds
| ErrNoUnlocker
| ErrInvalidTxID
| Errorf (format : string) (arg : Z)
| InvalidByteError (b : Z)
| ErrLength
| External (msg : string)
| Wrapped (msg : string) (cause : error).

#[global] Instance error_eq_dec : EqDecision error.
Proof.
  unfold EqDecision, Decision.
  fix IH 1. intros x y.
  destruct x, y; try (right; discriminate); try (left; reflexivity).
  - destruct (String.string_dec format format0), (Z.eq_dec arg arg0);
      try (right; congruence); left; congruence.
  - destruct (Z.eq_dec b b0); [left | right]; congruence.
  - destruct (String.string_dec msg msg0); [left | right]; congruence.
  - destruct (String.string_dec msg msg0), (IH x y);
      try (right; congruence); left; congruence.
Defined.

(** [errors.Is]: the error itself or one of the errors it wraps. *)
Fixpoint errors_Is (err target : error) : bool :=
  if decide (err = target) then true
  else match err with
       | Wrapped _ cause => errors_Is cause target
       | _ => false
       end.

Inductive panic : Type :=
| IndexOutOfRange (index : Z) (len : nat)
| NilDereference.

(** How a call ends when it does not end well: it returns an error, it
    panics, or (for a loop without a bound) it is still running when the
    fuel of the model is spent. *)
Inductive failure : Type :=
| Err (e : error)
| Panic (p : panic)
| OutOfFuel.

Inductive result (A : Type) : Type :=
| Ok (a : A)
| Fail (f : failure).

Arguments Ok {A} a.
Arguments Fail {A} f.

(** ** The records *)

(** Modelled from the spec: the types [UTXO], [Output], [Input] and
    [Transaction] are declared in files that are not among the source files
    here.  Their fields are the ones [txinput.go] reads and writes, with the
    types of the values it puts there; the spec's data model lists the same
    ones.  A script is held through a pointer, nil for none. *)
Module UTXO.
Record t : Type := Build {
  TxID : list byte;
  Vout : Z;
  LockingScript : option Script;
  Satoshis : Z
}.
End UTXO.

Module Output.
Record t : Type := Build {
  Satoshis : Z;
  LockingScript : option Script
}.
End Output.

Record Input : Type := mkInput {
  previousTxID : list byte;
  PreviousTxSatoshis : Z;
  PreviousTxScript : option Script;
  UnlockingScript : option Script;
  PreviousTxOutIndex : Z;
  SequenceNumber : Z
}.

Record Transaction : Type := mkTx {
  Inputs : list (option Input);
  Outputs : list (option Output.t)
}.

(** The default finalised sequence number, as the comments of [From] and
    [FromUTXOs] give it. *)
Definition DefaultSequenceNumber : Z := 0xFFFFFFFF.

(** The getter [PreviousTxID] of an input. *)
Definition PreviousTxID (i : Input) : list byte := previousTxID i.

(** ** Reading the inputs *)

(** [TotalInputSatoshis]: the loop [total += in.PreviousTxSatoshis] over
    [tx.Inputs], in [uint64]. *)
Fixpoint TotalInputSatoshis_loop (ins : list (option Input)) (total : Z) : result Z :=
  match ins with
  | [] => Ok total
  | None :: _ => Fail (Panic NilDereference)
  | Some i :: rest =>
      TotalInputSatoshis_loop rest (wrap64 (total + PreviousTxSatoshis i))
  end.

Definition TotalInputSatoshis (tx : Transaction) : result Z :=
  TotalInputSatoshis_loop (Inputs tx) 0.

Definition addInput (tx : Transaction) (input : option Input) : Transaction :=
  mkTx (Inputs tx ++ [input]) (Outputs tx).

Definition InputCount (tx : Transaction) : nat := length (Inputs tx).

(** ** Storing an unlocking script *)

Definition setUnlockingScript (i : Input) (s : option Script) : Input :=
  mkInput (previousTxID i) (PreviousTxSatoshis i) (PreviousTxScript i) s
          (PreviousTxOutIndex i) (SequenceNumber i).

(** [InsertInputUnlockingScript]: [tx.Inputs[index]] is read first, and Go
    panics there when [index] is not below [len(tx.Inputs)]; the error is
    returned for a slot that holds nil.  The store is to the record of the
    slot: this is the function for slots that hold pointers of their own;
    [Shared.InsertInputUnlockingScript] stores through the pointer. *)
Definition InsertInputUnlockingScript (tx : Transaction) (index : Z) (s : option Script)
  : Transaction * result unit :=
  match Inputs tx !! Z.to_nat index with
  | None => (tx, Fail (Panic (IndexOutOfRange index (length (Inputs tx)))))
  | Some (Some i) =>
      (mkTx (<[Z.to_nat index := Some (setUnlockingScript i s)]> (Inputs tx)) (Outputs tx),
       Ok tt)
  | Some None => (tx, Fail (Err (Errorf "no input at index %d" index)))
  end.

(** ** Hexadecimal text ([encoding/hex]) *)

(** [fromHexChar]: the value of a hexadecimal digit, in either case. *)
Definition fromHexChar (c : ascii) : option Z :=
  let n := Z.of_N (N_of_ascii c) in
  if (48 <=? n) && (n <=? 57) then Some (n - 48)
  else if (97 <=? n) && (n <=? 102) then Some (n - 97 + 10)
  else if (65 <=? n) && (n <=? 70) then Some (n - 65 + 10)
  else None.

Definition InvalidByte (c : ascii) : error := InvalidByteError (Z.of_N (N_of_ascii c)).

(** [hex.DecodeString]: two digits make a byte; a character that is no digit
    is reported before a bad length. *)
Fixpoint hex_DecodeString (s : string) : result (list byte) :=
  match s with
  | EmptyString => Ok []
  | String p EmptyString =>
      match fromHexChar p with
      | None => Fail (Err (InvalidByte p))
      | Some _ => Fail (Err ErrLength)
      end
  | String p (String q rest) =>
      match fromHexChar p, fromHexChar q with
      | None, _ => Fail (Err (InvalidByte p))
      | Some _, None => Fail (Err (InvalidByte q))
      | Some a, Some b =>
          match hex_DecodeString rest with
          | Ok bs => Ok (Z.lor (Z.shiftl a 4) b :: bs)
          | Fail f => Fail f
          end
      end
  end.

Definition hexDigit (d : Z) : ascii :=
  ascii_of_N (Z.to_N (if d <? 10 then 48 + d else 87 + d)).

(** [hex.EncodeToString]: two lower-case digits per byte. *)
Fixpoint hex_EncodeToString (bs : list byte) : string :=
  match bs with
  | [] => EmptyString
  | b :: rest =>
      String (hexDigit (Z.shiftr b 4)) (String (hexDigit (Z.land b 15))
             (hex_EncodeToString rest))
  end.

(** Modelled from the spec: [script.NewFromHexString] belongs to the script
    package, which is not among the source files here.  The spec asks that a
    hex-encoded script decodes, and a failure is a decoding error: the script
    is the decoded bytes. *)
Definition NewFromHexString (s : string) : result Script := hex_DecodeString s.

(** Modelled from the spec: [util.ReverseBytes] is not among the source files
    here; the spec has the identifier bytes reversed. *)
Definition ReverseBytes (a : list byte) : list byte := rev a.

(** [binary.LittleEndian.PutUint32] on a fresh 4-byte slice. *)
Definition PutUint32 (v : Z) : list byte :=
  [wrap8 v; wrap8 (Z.shiftr v 8); wrap8 (Z.shiftr v 16); wrap8 (Z.shiftr v 24)].

(** [binary.LittleEndian.Uint32], the reading counterpart. *)
Definition Uint32 (b : list byte) : Z :=
  match b with
  | [b0; b1; b2; b3] =>
      Z.lor (Z.lor b0 (Z.shiftl b1 8)) (Z.lor (Z.shiftl b2 16) (Z.shiftl b3 24))
  | _ => 0
  end.

Section Inputs.

(** The hash primitive and the check on a transaction identifier are the
    work of other packages. *)
Variable Sha256 : list byte -> list byte.
Variable IsValidTxID : list byte -> bool.

(** Modelled from the spec: [crypto.Sha256d] is not among the source files
    here; the spec calls it the double-hash primitive. *)
Definition Sha256d (b : list byte) : list byte := Sha256 (Sha256 b).

(** Modelled from the spec: [PreviousTxIDAdd] is declared with the Input
    type, which is not among the source files here.  It stores the
    identifier that [PreviousTxID] reads back, or refuses a malformed
    identifier with an error and stores nothing. *)
Definition PreviousTxIDAdd (i : Input) (txID : list byte) : result Input :=
  if IsValidTxID txID
  then Ok (mkInput txID (PreviousTxSatoshis i) (PreviousTxScript i) (UnlockingScript i)
                   (PreviousTxOutIndex i) (SequenceNumber i))
  else Fail (Err ErrInvalidTxID).

(** The input that [FromUTXOs] builds before the identifier is added. *)
Definition newInput (utxo : UTXO.t) : Input :=
  {| previousTxID := [];
     PreviousTxSatoshis := UTXO.Satoshis utxo;
     PreviousTxScript := UTXO.LockingScript utxo;
     UnlockingScript := None;
     PreviousTxOutIndex := UTXO.Vout utxo;
     SequenceNumber := DefaultSequenceNumber |}.

(** [FromUTXOs]: one input per UTXO, appended as soon as it is built; the
    first identifier that is refused ends the loop with its error, and the
    inputs appended before it stay. *)
Fixpoint FromUTXOs (tx : Transaction) (utxos : list (option UTXO.t))
  : Transaction * result unit :=
  match utxos with
  | [] => (tx, Ok tt)
  | None :: _ => (tx, Fail (Panic NilDereference))
  | Some utxo :: rest =>
      match PreviousTxIDAdd (newInput utxo) (UTXO.TxID utxo) with
      | Ok i => FromUTXOs (addInput tx (Some i)) rest
      | Fail f => (tx, Fail f)
      end
  end.

(** [From]: the locking script is decoded first, then the identifier. *)
Definition From (tx : Transaction) (prevTxID : string) (vout : Z)
           (prevTxLockingScript : string) (satoshis : Z) : Transaction * result unit :=
  match NewFromHexString prevTxLockingScript with
  | Ok pts =>
      match hex_DecodeString prevTxID with
      | Ok pti =>
          FromUTXOs tx [Some {| UTXO.TxID := pti; UTXO.Vout := vout;
                                UTXO.LockingScript := Some pts;
                                UTXO.Satoshis := satoshis |}]
      | Fail f => (tx, Fail f)
      end
  | Fail f => (tx, Fail f)
  end.

(** ** Signature-hash helpers *)

(** The buffer that [PreviousOutHash] fills: for each input the reversed
    identifier, then the output index in four little-endian bytes. *)
Fixpoint PreviousOutHash_buf (ins : list (option Input)) (buf : list byte)
  : result (list byte) :=
  match ins with
  | [] => Ok buf
  | None :: _ => Fail (Panic NilDereference)
  | Some i :: rest =>
      PreviousOutHash_buf rest
        ((buf ++ ReverseBytes (PreviousTxID i)) ++ PutUint32 (PreviousTxOutIndex i))
  end.

Definition PreviousOutHash (tx : Transaction) : result (list byte) :=
  match PreviousOutHash_buf (Inputs tx) [] with
  | Ok buf => Ok (Sha256d buf)
  | Fail f => Fail f
  end.

(** The buffer that [SequenceHash] fills. *)
Fixpoint SequenceHash_buf (ins : list (option Input)) (buf : list byte)
  : result (list byte) :=
  match ins with
  | [] => Ok buf
  | None :: _ => Fail (Panic NilDereference)
  | Some i :: rest => SequenceHash_buf rest (buf ++ PutUint32 (SequenceNumber i))
  end.

Definition SequenceHash (tx : Transaction) : result (list byte) :=
  match SequenceHash_buf (Inputs tx) [] with
  | Ok buf => Ok (Sha256d buf)
  | Fail f => Fail f
  end.

End Inputs.

(** ** The collaborators and their calls *)

(** Modelled from the spec: the sighash package is not among the source files
    here.  [AllForkID] is the policy that signs all inputs and outputs and is
    pinned to the chain fork, SIGHASH [ALL|FORKID]. *)
Definition sighash_All : Z := 0x1.
Definition sighash_ForkID : Z := 0x40.
Definition sighash_AllForkID : Z := Z.lor sighash_All sighash_ForkID.

(** Modelled from the spec: [UnlockerParams], the interfaces [Unlocker] and
    [UnlockerGetter] are declared in a file that is not among the source
    files here; the fields and methods are the ones [FillInput] and
    [FillAllInputs] use. *)
Record UnlockerParams : Type := mkParams {
  InputIdx : Z;
  SigHashFlags : Z
}.

(** The calls that leave this file, in the order they are made.  A request
    for an unlocker is recorded with the failure it ended in, if any; a call
    of an unlocker with the transaction it was handed and with its answer. *)
Inductive event : Type :=
| CallNext (deficit : Z)
| CallUnlocker (lockingScript : option Script) (failed : option failure)
| CallUnlockingScript (tx : Transaction) (params : UnlockerParams)
                      (answer : result (option Script)).

(** The interface [Unlocker].  A collaborator works on a state [W] of its own
    (a wallet, a device, a remote service); it reads the transaction and does
    not write to it. *)
Module Unlocker.
Record t (W : Type) : Type := Build {
  UnlockingScript :
    W -> Transaction -> UnlockerParams -> W * result (option Script)
}.
Arguments Build {W} _.
Arguments UnlockingScript {W} _ _ _ _.
End Unlocker.

Section Calls.

Variable W : Type.
Variable IsValidTxID : list byte -> bool.

(** The fee quote and the estimate made from it belong to the fee code,
    which is not among the source files here. *)
Variable FeeQuote : Type.
Variable EstimateFee : FeeQuote -> Transaction -> result Z.

Definition UTXOGetterFunc : Type := W -> Z -> W * result (list (option UTXO.t)).

(** The interface [UnlockerGetter]; a nil [Unlocker] is [None]. *)
Definition UnlockerGetter : Type :=
  W -> option Script -> W * result (option (Unlocker.t W)).

Record State : Type := mkState {
  tx : Transaction;
  world : W;
  calls : list event
}.

Definition called (e : event) (w : W) (st : State) : State :=
  mkState (tx st) w (calls st ++ [e]).

Definition with_tx (t : Transaction) (st : State) : State :=
  mkState t (world st) (calls st).

(** *** Funding *)

(** Modelled from the spec: [TotalOutputSatoshis] is not among the source
    files here; the sum of the output satoshis, as [TotalInputSatoshis]
    sums the inputs. *)
Fixpoint TotalOutputSatoshis_loop (outs : list (option Output.t)) (total : Z)
  : result Z :=
  match outs with
  | [] => Ok total
  | None :: _ => Fail (Panic NilDereference)
  | Some o :: rest =>
      TotalOutputSatoshis_loop rest (wrap64 (total + Output.Satoshis o))
  end.

Definition TotalOutputSatoshis (t : Transaction) : result Z :=
  TotalOutputSatoshis_loop (Outputs t) 0.

(** Modelled from the spec: [estimateDeficit] is not among the source files
    here.  The deficit is (sum of output satoshis + estimated fee) - (sum of
    input satoshis), clamped to zero when the inputs already cover the
    requirement; a failure of the fee estimate is passed on. *)
Definition estimateDeficit (fq : FeeQuote) (t : Transaction) : result Z :=
  match TotalOutputSatoshis t with
  | Fail f => Fail f
  | Ok outs =>
      match TotalInputSatoshis t with
      | Fail f => Fail f
      | Ok ins =>
          match EstimateFee fq t with
          | Fail f => Fail f
          | Ok fee =>
              let required := wrap64 (outs + fee) in
              Ok (if ins <? required then required - ins else 0)
          end
      end
  end.

(** How one round of the loop of [Fund] ends. *)
Inductive flow : Type :=
| Next (deficit : Z)
| Break
| Return (f : failure).

(** The body of the loop of [Fund], entered with a nonzero [deficit]. *)
Definition Fund_body (fq : FeeQuote) (next : UTXOGetterFunc) (deficit : Z)
           (st : State) : State * flow :=
  let '(w, r) := next (world st) deficit in
  let st1 := called (CallNext deficit) w st in
  match r with
  | Fail (Err err) =>
      if errors_Is err ErrNoUTXO then (st1, Break) else (st1, Return (Err err))
  | Fail f => (st1, Return f)
  | Ok utxos =>
      match FromUTXOs IsValidTxID (tx st1) utxos with
      | (t, Fail f) => (with_tx t st1, Return f)
      | (t, Ok _) =>
          match estimateDeficit fq t with
          | Fail f => (with_tx t st1, Return f)
          | Ok d => (with_tx t st1, Next d)
          end
      end
  end.

(** The loop [for deficit != 0].  It has no bound of its own: [fuel] bounds
    the rounds of the model.  [Ok d] is the deficit the loop is left with,
    by its condition or by [break]. *)
Fixpoint Fund_loop (fuel : nat) (fq : FeeQuote) (next : UTXOGetterFunc)
         (deficit : Z) (st : State) : State * result Z :=
  if deficit =? 0 then (st, Ok deficit)
  else match fuel with
       | O => (st, Fail OutOfFuel)
       | S fuel' =>
           match Fund_body fq next deficit st with
           | (st', Next d) => Fund_loop fuel' fq next d st'
           | (st', Break) => (st', Ok deficit)
           | (st', Return f) => (st', Fail f)
           end
       end.

Definition Fund (fuel : nat) (fq : FeeQuote) (next : UTXOGetterFunc) (st : State)
  : State * result unit :=
  match estimateDeficit fq (tx st) with
  | Fail f => (st, Fail f)
  | Ok deficit =>
      match Fund_loop fuel fq next deficit st with
      | (st', Fail f) => (st', Fail f)
      | (st', Ok d) =>
          if d =? 0 then (st', Ok tt) else (st', Fail (Err ErrInsufficientFunds))
      end
  end.

(** *** Filling the inputs *)

(** [FillInput]; a nil unlocker is [None]. *)
Definition FillInput (unlocker : option (Unlocker.t W)) (params : UnlockerParams)
           (st : State) : State * result unit :=
  match unlocker with
  | None => (st, Fail (Err ErrNoUnlocker))
  | Some u =>
      let params :=
        if SigHashFlags params =? 0
        then mkParams (InputIdx params) sighash_AllForkID
        else params in
      let '(w, r) := Unlocker.UnlockingScript u (world st) (tx st) params in
      let st1 := called (CallUnlockingScript (tx st) params r) w st in
      match r with
      | Fail f => (st1, Fail f)
      | Ok unlockingScript =>
          let '(t, r') :=
            InsertInputUnlockingScript (tx st1) (InputIdx params) unlockingScript in
          (with_tx t st1, r')
      end
  end.

(** The loop of [FillAllInputs]: [ins] is what is left of the range over
    [tx.Inputs], [i] the index of its head. *)
Fixpoint FillAllInputs_range (ug : UnlockerGetter) (i : nat)
         (ins : list (option Input)) (st : State) : State * result unit :=
  match ins with
  | [] => (st, Ok tt)
  | None :: _ => (st, Fail (Panic NilDereference))
  | Some input :: rest =>
      let '(w, r) := ug (world st) (PreviousTxScript input) in
      let failed := match r with Fail f => Some f | Ok _ => None end in
    let st1 := called (CallUnlocker (PreviousTxScript input) failed) w st in
      match r with
      | Fail f => (st1, Fail f)
      | Ok u =>
          match FillInput u (mkParams (wrap32 (Z.of_nat i)) sighash_AllForkID) st1 with
          | (st2, Fail f) => (st2, Fail f)
          | (st2, Ok _) => FillAllInputs_range ug (S i) rest st2
          end
      end
  end.

Definition FillAllInputs (ug : UnlockerGetter) (st : State) : State * result unit :=
  FillAllInputs_range ug 0 (Inputs (tx st)) st.

End Calls.

Arguments FromUTXOs IsValidTxID tx utxos : rename.
Arguments State W : clear implicits.
Arguments mkState {W} tx world calls.
Arguments tx {W} s.
Arguments world {W} s.
Arguments calls {W} s.
Arguments called {W} e w st.
Arguments with_tx {W} t st.
Arguments UTXOGetterFunc W : clear implicits.
Arguments UnlockerGetter W : clear implicits.
Arguments estimateDeficit {FeeQuote} EstimateFee fq t.
Arguments Fund_body {W} IsValidTxID {FeeQuote} EstimateFee fq next deficit st.
Arguments Fund_loop {W} IsValidTxID {FeeQuote} EstimateFee fuel fq next deficit st.
Arguments Fund {W} IsValidTxID {FeeQuote} EstimateFee fuel fq next st.
Arguments FillInput {W} unlocker params st.
Arguments FillAllInputs_range {W} ug i ins st.
Arguments FillAllInputs {W} ug st.

(** ** The inputs as pointers into a store *)

(** [tx.Inputs] is a slice of pointers.  The definitions above take each slot
    to hold an input of its own, which is how [From], [FromUTXOs] and
    [AddP2PKHInputsFromTx] build a transaction: each appends a pointer to the
    input it has just made.  The field is exported, though, and a caller may
    put one pointer into two slots; a store through one slot is then seen
    through the other.  In [Shared] the inputs live in a store, the slots
    hold addresses, and the three functions that store an unlocking script
    write to the store. *)
Definition address : Type := nat.

Module Shared.

Definition Store : Type := address -> Input.

Record t : Type := Build {
  Inputs : list (option address);
  Outputs : list (option Output.t)
}.

(** What a reader of the transaction sees: in each slot the input it points
    to. *)
Definition view (h : Store) (tx : t) : Transaction :=
  mkTx ((fun slot : option address => h <$> slot) <$> Inputs tx) (Outputs tx).

(** [InsertInputUnlockingScript]: the store [tx.Inputs[index].UnlockingScript = s]
    goes through the pointer in the slot. *)
Definition InsertInputUnlockingScript (h : Store) (tx : t) (index : Z) (s : option Script)
  : Store * result unit :=
  match Inputs tx !! Z.to_nat index with
  | None => (h, Fail (Panic (IndexOutOfRange index (length (Inputs tx)))))
  | Some (Some a) => (<[a := setUnlockingScript (h a) s]> h, Ok tt)
  | Some None => (h, Fail (Err (Errorf "no input at index %d" index)))
  end.

Section Calls.

Variable W : Type.

Record State : Type := mkState {
  store : Store;
  tx : t;
  world : W;
  calls : list event
}.

Definition called (e : event) (w : W) (st : State) : State :=
  mkState (store st) (tx st) w (calls st ++ [e]).

Definition with_store (h : Store) (st : State) : State :=
  mkState h (tx st) (world st) (calls st).

(** [FillInput]; the unlocker reads the transaction as it is. *)
Definition FillInput (unlocker : option (Unlocker.t W)) (params : UnlockerParams)
           (st : State) : State * result unit :=
  match unlocker with
  | None => (st, Fail (Err ErrNoUnlocker))
  | Some u =>
      let params :=
        if SigHashFlags params =? 0
        then mkParams (InputIdx params) sighash_AllForkID
        else params in
      let '(w, r) :=
        Unlocker.UnlockingScript u (world st) (view (store st) (tx st)) params in
      let st1 := called (CallUnlockingScript (view (store st) (tx st)) params r) w st in
      match r with
      | Fail f => (st1, Fail f)
      | Ok unlockingScript =>
          let '(h, r') :=
            InsertInputUnlockingScript (store st1) (tx st1) (InputIdx params)
                                       unlockingScript in
          (with_store h st1, r')
      end
  end.

(** The loop of [FillAllInputs]: [ins] is what is left of the range over
    [tx.Inputs], [i] the index of its head; [in.PreviousTxScript] is read
    through the pointer when its turn comes. *)
Fixpoint FillAllInputs_range (ug : UnlockerGetter W) (i : nat)
         (ins : list (option address)) (st : State) : State * result unit :=
  match ins with
  | [] => (st, Ok tt)
  | None :: _ => (st, Fail (Panic NilDereference))
  | Some a :: rest =>
      let script := PreviousTxScript (store st a) in
      let '(w, r) := ug (world st) script in
      let failed := match r with Fail f => Some f | Ok _ => None end in
      let st1 := called (CallUnlocker script failed) w st in
      match r with
      | Fail f => (st1, Fail f)
      | Ok u =>
          match FillInput u (mkParams (wrap32 (Z.of_nat i)) sighash_AllForkID) st1 with
          | (st2, Fail f) => (st2, Fail f)
          | (st2, Ok _) => FillAllInputs_range ug (S i) rest st2
          end
      end
  end.

Definition FillAllInputs (ug : UnlockerGetter W) (st : State) : State * result unit :=
  FillAllInputs_range ug 0 (Inputs (tx st)) st.

End Calls.

Arguments State W : clear implicits.
Arguments mkState {W} store tx world calls.
Arguments store {W} s.
Arguments tx {W} s.
Arguments world {W} s.
Arguments calls {W} s.
Arguments called {W} e w st.
Arguments with_store {W} h st.
Arguments FillInput {W} unlocker params st.
Arguments FillAllInputs_range {W} ug i ins st.
Arguments FillAllInputs {W} ug st.

End Shared.

(** ** Inputs from the outputs of a previous transaction *)

Section P2PKH.

Variable IsValidTxID : list byte -> bool.

(** The identifier of a transaction, the public-key hash a locking script
    pays to and the hash of a public key are computed by code that is not
    among the source files here (the transaction's serialisation, the script
    package, the crypto package).  The identifier is a digest of the whole
    serialised transaction, outputs included: computing it panics where the
    serialisation does, on a nil output or a nil locking script. *)
Variable TxIDBytes : Transaction -> result (list byte).
Variable PublicKeyHash : option Script -> result (list byte).
Variable Hash160 : list byte -> list byte.

(** The loop of [AddP2PKHInputsFromTx]: [outs] is what is left of the range
    over [pvsTx.Outputs], [i] the index of its head. *)
Fixpoint AddP2PKHInputsFromTx_range (prevTxIDBytes matchPK : list byte) (i : nat)
         (outs : list (option Output.t)) (tx : Transaction) : Transaction * result unit :=
  match outs with
  | [] => (tx, Ok tt)
  | None :: _ => (tx, Fail (Panic NilDereference))
  | Some utxo :: rest =>
      match PublicKeyHash (Output.LockingScript utxo) with
      | Fail f => (tx, Fail f)
      | Ok utxoPkHASH160 =>
          if bool_decide (utxoPkHASH160 = Hash160 matchPK)
          then
            match FromUTXOs IsValidTxID tx
                    [Some {| UTXO.TxID := prevTxIDBytes;
                             UTXO.Vout := wrap32 (Z.of_nat i);
                             UTXO.Satoshis := Output.Satoshis utxo;
                             UTXO.LockingScript := Output.LockingScript utxo |}] with
            | (tx', Ok _) =>
                AddP2PKHInputsFromTx_range prevTxIDBytes matchPK (S i) rest tx'
            | (tx', Fail f) => (tx', Fail f)
            end
          else AddP2PKHInputsFromTx_range prevTxIDBytes matchPK (S i) rest tx
      end
  end.

(** [AddP2PKHInputsFromTx]: the identifier of the previous transaction is
    computed once, up front, before any output is looked at. *)
Definition AddP2PKHInputsFromTx (tx pvsTx : Transaction) (matchPK : list byte)
  : Transaction * result unit :=
  match TxIDBytes pvsTx with
  | Fail f => (tx, Fail f)
  | Ok prevTxIDBytes =>
      AddP2PKHInputsFromTx_range prevTxIDBytes matchPK 0 (Outputs pvsTx) tx
  end.

End P2PKH.

(** ** What the loops are compared with *)

(** The sum of the previous-output values of a list of inputs, as a
    mathematical integer. *)
Definition sum_satoshis (ins : list Input) : Z :=
  foldr (fun i acc => PreviousTxSatoshis i + acc) 0 ins.

(** The four bytes of [v], least significant first. *)
Definition le32 (v : Z) : list byte :=
  [v mod 256; (v / 256) mod 256; (v / 65536) mod 256; (v / 16777216) mod 256].

(** The bytes one input adds to the outpoint preimage: its identifier
    byte-reversed, then its output index. *)
Definition outpoint_bytes (i : Input) : list byte :=
  rev (PreviousTxID i) ++ le32 (PreviousTxOutIndex i).

Definition sequence_bytes (i : Input) : list byte := le32 (SequenceNumber i).

(** The sum of the values of the UTXOs a source returns. *)
Definition sum_utxos (us : list UTXO.t) : Z :=
  foldr (fun u acc => UTXO.Satoshis u + acc) 0 us.

(** A byte, a [uint32], a [uint64]. *)
Definition is_byte (b : Z) : Prop := 0 <= b < 256.
Definition is_uint32 (v : Z) : Prop := 0 <= v < 2 ^ 32.
Definition is_uint64 (v : Z) : Prop := 0 <= v < 2 ^ 64.

(** What [FromUTXOs] appends for one UTXO. *)
Definition input_of_utxo (u : UTXO.t) : Input :=
  {| previousTxID := UTXO.TxID u;
     PreviousTxSatoshis := UTXO.Satoshis u;
     PreviousTxScript := UTXO.LockingScript u;
     UnlockingScript := None;
     PreviousTxOutIndex := UTXO.Vout u;
     SequenceNumber := DefaultSequenceNumber |}.

(** [Fund_rounds n d st d' st']: [n] full rounds of the loop of [Fund] lead
    from the deficit [d] and the state [st] to the deficit [d'] and the state
    [st']; in each of them the source returned UTXOs and they were added. *)
Inductive Fund_rounds {W FeeQuote : Type} (IsValidTxID : list byte -> bool)
          (EstimateFee : FeeQuote -> Transaction -> result Z)
          (fq : FeeQuote) (next : UTXOGetterFunc W)
  : nat -> Z -> State W -> Z -> State W -> Prop :=
| Fund_rounds_O (d : Z) (st : State W) :
    Fund_rounds IsValidTxID EstimateFee fq next 0 d st d st
| Fund_rounds_S (n : nat) (d d1 d2 : Z) (st st1 st2 : State W) :
    d <> 0 ->
    Fund_body IsValidTxID EstimateFee fq next d st = (st1, Next d1) ->
    Fund_rounds IsValidTxID EstimateFee fq next n d1 st1 d2 st2 ->
    Fund_rounds IsValidTxID EstimateFee fq next (S n) d st d2 st2.

(** [extends st st']: [st'] has the transaction of [st] with inputs appended
    and nothing else changed. *)
Definition extends {W : Type} (st st' : State W) : Prop :=
  exists added : list Input,
    tx st' = mkTx (Inputs (tx st) ++ (Some <$> added)) (Outputs (tx st)).




(** The scripts requested from the getter, in order. *)
Fixpoint getter_calls (log : list event) : list (option Script) :=
  match log with
  | [] => []
  | CallUnlocker s _ :: log' => s :: getter_calls log'
  | _ :: log' => getter_calls log'
  end.

(** The parameters the unlockers were called with, in order. *)
Fixpoint unlock_calls (log : list event) : list UnlockerParams :=
  match log with
  | [] => []
  | CallUnlockingScript _ p _ :: log' => p :: unlock_calls log'
  | _ :: log' => unlock_calls log'
  end.




(** ** Sample data *)

(** Modelled from the spec: [IsValidTxID], the check that [PreviousTxIDAdd]
    makes, is not among the source files here.  The spec counts a malformed
    identifier among the decoding failures; a transaction identifier is a
    double-hash digest, 32 bytes, the 64 hexadecimal digits of the example
    program's identifier. *)
Definition txid_is_32_bytes (txID : list byte) : bool :=
  Nat.eqb (length txID) 32.

(** The previous output that the repository's example program spends. *)
Definition sample_txid_hex : string :=
  "11b476ad8e0a48fcd40807a111a050af51114877e09283bfa7f3505081a1819d".
Definition sample_script_hex : string :=
  "76a914eb0bd5edba389198e73f8efabddfc61666969ff788ac6a0568656c6c6f".

Definition empty_tx : Transaction := mkTx [] [].

(** The transaction of the example program after its call of [From]. *)
Definition sample_tx : Transaction :=
  fst (From txid_is_32_bytes empty_tx sample_txid_hex 0 sample_script_hex 1500).

(** A stand-in for the hash primitive, for running the helpers. *)
Definition sample_digest (b : list byte) : list byte := [Z.of_nat (length b) mod 256].

(** An unlocker that answers every request with the script [OP_TRUE] and
    counts its calls in the world. *)
Definition sample_unlocker : Unlocker.t nat :=
  Unlocker.Build (fun w _ _ => (S w, Ok (Some [0x51]))).

Definition sample_getter : UnlockerGetter nat :=
  fun w _ => (w, Ok (Some sample_unlocker)).

(** A getter that has no unlocker for the script [badscript]. *)
Definition picky_getter (badscript : option Script) : UnlockerGetter nat :=
  fun w s =>
    if decide (s = badscript) then (w, Fail (Err (External "no key for this script")))
    else (w, Ok (Some sample_unlocker)).

(** A fee estimate that grows with the transaction: 10 satoshis per input. *)
Definition fee_per_input (_ : unit) (t : Transaction) : result Z :=
  Ok (10 * Z.of_nat (length (Inputs t))).

(** A fee estimate that does not depend on the inputs. *)
Definition flat_fee (_ : unit) (_ : Transaction) : result Z := Ok 10.

(** A transaction that pays 100 satoshis and has no input yet. *)
Definition unfunded_tx : Transaction := mkTx [] [Some (Output.Build 100 None)].

Definition utxo_worth (satoshis : Z) : UTXO.t :=
  {| UTXO.TxID := repeat 0x11 32; UTXO.Vout := 0;
     UTXO.LockingScript := Some [0x51]; UTXO.Satoshis := satoshis |}.

(** A source that holds one UTXO, worth exactly the deficit it is first asked
    for, and is depleted after that.  Its world counts the calls. *)
Definition one_exact_utxo : UTXOGetterFunc nat :=
  fun calls deficit =>
    match calls with
    | O => (S calls, Ok [Some (utxo_worth deficit)])
    | _ => (S calls, Fail (Err ErrNoUTXO))
    end.

(** A source that is depleted from the start. *)
Definition depleted : UTXOGetterFunc nat :=
  fun calls _ => (S calls, Fail (Err ErrNoUTXO)).

(** A source that gives one UTXO worth 60 and then fails with an error of its
    own. *)
Definition failing_source : UTXOGetterFunc nat :=
  fun calls _ =>
    match calls with
    | O => (S calls, Ok [Some (utxo_worth 60)])
    | _ => (S calls, Fail (Err (External "connection refused")))
    end.

(** An unlocker whose script is the one byte of the flags it was given. *)
Definition flag_echo_unlocker : Unlocker.t nat :=
  Unlocker.Build (fun w _ p => (S w, Ok (Some [SigHashFlags p]))).

(** Two inputs, the second with the locking script [[0x6a]]. *)
Definition two_inputs : list Input :=
  [mkInput (repeat 0x11 32) 60 (Some [0x51]) None 0 DefaultSequenceNumber;
   mkInput (repeat 0x22 32) 50 (Some [0x6a]) None 1 DefaultSequenceNumber].

(** A UTXO whose identifier is one byte long. *)
Definition short_utxo : UTXO.t :=
  {| UTXO.TxID := [0x00]; UTXO.Vout := 1; UTXO.LockingScript := None; UTXO.Satoshis := 5 |}.

(** A source that answers every call with no UTXO and no error. *)
Definition stalling_source : UTXOGetterFunc nat :=
  fun calls _ => (S calls, Ok []).

(** A source whose batch holds a UTXO with a malformed identifier between
    two good ones. *)
Definition bad_batch_source : UTXOGetterFunc nat :=
  fun calls _ => (S calls, Ok [Some (utxo_worth 60); Some short_utxo; Some (utxo_worth 50)]).

(** Stand-ins for the script and crypto packages, for running
    [AddP2PKHInputsFromTx]: the public-key hash of a script is the 20 bytes
    after the three opcodes a P2PKH script starts with, and the hash of a
    public key is 20 times its first byte. *)
Definition sample_PublicKeyHash (s : option Script) : result (list byte) :=
  match s with
  | Some (0x76 :: 0xa9 :: 0x14 :: rest) => Ok (take 20 rest)
  | Some [] | None => Fail (Err (External "script is empty"))
  | Some _ => Fail (Err (External "not a P2PKH"))
  end.

Definition sample_Hash160 (pk : list byte) : list byte :=
  repeat (hd 0 pk) 20.

Definition sample_TxIDBytes (_ : Transaction) : result (list byte) :=
  Ok (repeat 0x33 32).

Definition p2pkh_script (h : byte) : option Script :=
  Some ([0x76; 0xa9; 0x14] ++ repeat h 20 ++ [0x88; 0xac]).

(** A previous transaction with three outputs, the first and the third to
    the key whose hash is 20 bytes 0x07. *)
Definition paying_tx : Transaction :=
  mkTx [] [Some (Output.Build 10 (p2pkh_script 0x07));
           Some (Output.Build 20 (p2pkh_script 0x08));
           Some (Output.Build 30 (p2pkh_script 0x07))].

(** A previous transaction whose second output has no public-key hash. *)
Definition mixed_tx : Transaction :=
  mkTx [] [Some (Output.Build 10 (p2pkh_script 0x07));
           Some (Output.Build 20 (Some [0x6a]));
           Some (Output.Build 30 (p2pkh_script 0x07))].





(** ** What signing and adding inputs leave as it is *)

(** An input without its unlocking script, and a transaction without the
    unlocking scripts of its inputs. *)
Definition unsigned (i : Input) : Input := setUnlockingScript i None.

Definition unsigned_slot (slot : option Input) : option Input := unsigned <$> slot.

Definition unsigned_tx (t : Transaction) : Transaction :=
  mkTx (unsigned_slot <$> Inputs t) (Outputs t).

(** The outpoint an input spends: the identifier and the output index. *)
Definition outpoint (i : Input) : list byte * Z :=
  (PreviousTxID i, PreviousTxOutIndex i).

(** ** The outputs [AddP2PKHInputsFromTx] picks *)

(** The outputs [outs], each with its index, counted from [i]. *)
Fixpoint indexed_from {A : Type} (i : nat) (outs : list A) : list (nat * A) :=
  match outs with
  | [] => []
  | o :: rest => (i, o) :: indexed_from (S i) rest
  end.

(** The output pays to the public-key hash [h]: its locking script has a
    public-key hash and it is [h]. *)
Definition pays_to (PublicKeyHash : option Script -> result (list byte))
           (h : list byte) (o : Output.t) : bool :=
  match PublicKeyHash (Output.LockingScript o) with
  | Ok h' => bool_decide (h' = h)
  | Fail _ => false
  end.

(** The input that spends the output [o] of index [k] of the transaction
    with the identifier [txid]. *)
Definition spending (txid : list byte) (ko : nat * Output.t) : Input :=
  {| previousTxID := txid;
     PreviousTxSatoshis := Output.Satoshis (snd ko);
     PreviousTxScript := Output.LockingScript (snd ko);
     UnlockingScript := None;
     PreviousTxOutIndex := wrap32 (Z.of_nat (fst ko));
     SequenceNumber := DefaultSequenceNumber |}.

(** The inputs for the outputs among [outs] that pay to [h]. *)
Definition p2pkh_inputs (PublicKeyHash : option Script -> result (list byte))
           (h txid : list byte) (i : nat) (outs : list Output.t) : list Input :=
  spending txid <$> filter (fun ko => pays_to PublicKeyHash h (snd ko) = true)
                           (indexed_from i outs).

(** * Properties *)

(** ** Sums and wrap-around *)

Lemma wrap64_add_l (a b : Z) : wrap64 (wrap64 a + b) = wrap64 (a + b).
Proof. unfold wrap64. apply Zplus_mod_idemp_l. Qed.

Lemma TotalInputSatoshis_loop_sum (ins : list Input) (total : Z) :
  TotalInputSatoshis_loop (Some <$> ins) (wrap64 total)
  = Ok (wrap64 (total + sum_satoshis ins)).
Proof.
  revert total. induction ins as [|i ins IH]; intros total; simpl.
  - by rewrite Z.add_0_r.
  - rewrite wrap64_add_l, IH. f_equal. f_equal. lia.
Qed.

(** A nil slot among the inputs makes the sum panic. *)
Lemma TotalInputSatoshis_loop_nil (before after : list (option Input)) (total : Z) :
  Forall is_Some before ->
  TotalInputSatoshis_loop (before ++ None :: after) total = Fail (Panic NilDereference).
Proof.
  intros Hsome. revert total.
  induction Hsome as [|x l [i ->] _ IH]; intros total; simpl; [done | apply IH].
Qed.

(** C10: [TotalInputSatoshis] returns the sum of the inputs' previous-output
    values modulo 2^64, as a value and never as an error; when the true sum
    is above 2^64 - 1 what it returns is not that sum. *)
Theorem TotalInputSatoshis_mod_2_64 (ins : list Input) (outs : list (option Output.t)) :
  TotalInputSatoshis (mkTx (Some <$> ins) outs) = Ok (sum_satoshis ins mod 2 ^ 64)
  /\ (2 ^ 64 - 1 < sum_satoshis ins -> sum_satoshis ins mod 2 ^ 64 <> sum_satoshis ins).
Proof.
  split.
  - unfold TotalInputSatoshis. simpl.
    change 0 with (wrap64 0) at 1. by rewrite TotalInputSatoshis_loop_sum.
  - intros Hbig Heq.
    pose proof (Z.mod_pos_bound (sum_satoshis ins) (2 ^ 64) ltac:(lia)). lia.
Qed.

Lemma TotalInputSatoshis_mod_2_64_witness :
  TotalInputSatoshis
    (mkTx [Some (mkInput [] (2 ^ 64 - 1) None None 0 0); Some (mkInput [] 1 None None 0 0)] [])
  = Ok 0
  /\ sum_satoshis [mkInput [] (2 ^ 64 - 1) None None 0 0; mkInput [] 1 None None 0 0]
       mod 2 ^ 64
     <> sum_satoshis [mkInput [] (2 ^ 64 - 1) None None 0 0; mkInput [] 1 None None 0 0].
Proof.
  destruct (TotalInputSatoshis_mod_2_64
              [mkInput [] (2 ^ 64 - 1) None None 0 0; mkInput [] 1 None None 0 0] [])
    as [Hsum Hwraps].
  split; [exact Hsum | apply Hwraps; reflexivity].
Defined.

(** ** Storing an unlocking script *)

Lemma InsertInputUnlockingScript_out_of_range (t : Transaction) (index : Z)
      (s : option Script) :
  Z.of_nat (length (Inputs t)) <= index ->
  InsertInputUnlockingScript t index s
  = (t, Fail (Panic (IndexOutOfRange index (length (Inputs t))))).
Proof.
  intros Hge. unfold InsertInputUnlockingScript.
  rewrite (lookup_ge_None_2 (Inputs t) (Z.to_nat index)); [done | lia].
Qed.

(** The error is what a nil slot inside the range gives, and only that. *)
Lemma InsertInputUnlockingScript_error (t : Transaction) (index : Z)
      (s : option Script) (e : error) :
  0 <= index ->
  snd (InsertInputUnlockingScript t index s) = Fail (Err e) <->
  Inputs t !! Z.to_nat index = Some None /\ e = Errorf "no input at index %d" index.
Proof.
  intros Hpos. unfold InsertInputUnlockingScript.
  destruct (Inputs t !! Z.to_nat index) as [[i|]|]; simpl; split.
  - discriminate.
  - intros [? _]; discriminate.
  - intros [= <-]. done.
  - intros [_ ->]. done.
  - discriminate.
  - intros [? _]; discriminate.
Qed.

Lemma InsertInputUnlockingScript_stored (t : Transaction) (index : Z)
      (s : option Script) (i : Input) :
  Inputs t !! Z.to_nat index = Some (Some i) ->
  InsertInputUnlockingScript t index s
  = (mkTx (<[Z.to_nat index := Some (setUnlockingScript i s)]> (Inputs t)) (Outputs t),
     Ok tt).
Proof. intros H. unfold InsertInputUnlockingScript. by rewrite H. Qed.

(** C1, at a transaction with one input and index 1: instead of the error
    "no input at index 1" the call panics, index out of range; so does
    [FillInput] once its unlocker has produced the script.  The transaction
    is as it was. *)
Theorem InsertInputUnlockingScript_past_the_end :
  InsertInputUnlockingScript sample_tx 1 (Some [0x51])
  = (sample_tx, Fail (Panic (IndexOutOfRange 1 1)))
  /\ FillInput (Some sample_unlocker) (mkParams 1 0) (mkState sample_tx O [])
     = (mkState sample_tx 1%nat
                [CallUnlockingScript sample_tx (mkParams 1 sighash_AllForkID) (Ok (Some [0x51]))],
        Fail (Panic (IndexOutOfRange 1 1))).
Proof. split; reflexivity. Qed.

(** ** Signature-hash helpers *)

Lemma PutUint32_le32 (v : Z) : PutUint32 v = le32 v.
Proof.
  unfold PutUint32, le32, wrap8.
  rewrite !Z.shiftr_div_pow2 by lia. reflexivity.
Qed.

(** The byte that [PutUint32] writes at offset [k / 8], bit by bit. *)
Lemma testbit_byte_at (v k n : Z) :
  0 <= k -> 0 <= n ->
  Z.testbit (Z.shiftl (wrap8 (Z.shiftr v k)) k) n
  = if (k <=? n) && (n <? k + 8) then Z.testbit v n else false.
Proof.
  intros Hk Hn. rewrite Z.shiftl_spec by lia. unfold wrap8.
  destruct (Z.leb_spec k n) as [Hle | Hlt]; simpl.
  - destruct (Z.ltb_spec n (k + 8)) as [Hin | Hout].
    + rewrite Z.mod_pow2_bits_low by lia. rewrite Z.shiftr_spec by lia.
      f_equal. lia.
    + rewrite Z.mod_pow2_bits_high by lia. done.
  - apply Z.testbit_neg_r. lia.
Qed.

(** Reading back what [PutUint32] wrote gives the number. *)
Lemma Uint32_PutUint32 (v : Z) : is_uint32 v -> Uint32 (PutUint32 v) = v.
Proof.
  unfold is_uint32. intros Hv. unfold Uint32, PutUint32.
  rewrite <- (Z.shiftl_0_r (wrap8 v)), <- (Z.shiftr_0_r v) at 1.
  apply Z.bits_inj'. intros n Hn.
  rewrite !Z.lor_spec, !testbit_byte_at by lia.
  repeat match goal with
         | |- context [?a <=? ?b] => destruct (Z.leb_spec a b)
         | |- context [?a <? ?b] => destruct (Z.ltb_spec a b)
         end; simpl; try lia;
    rewrite ?orb_false_r; try reflexivity.
  rewrite <- (Z.mod_small v (2 ^ 32)) by lia.
  by rewrite Z.mod_pow2_bits_high by lia.
Qed.

Lemma le32_bytes (v : Z) : Forall is_byte (le32 v).
Proof.
  unfold le32, is_byte. repeat constructor; apply Z.mod_pos_bound; lia.
Qed.

Lemma PreviousOutHash_buf_concat (ins : list Input) (buf : list byte) :
  PreviousOutHash_buf (Some <$> ins) buf = Ok (buf ++ concat (outpoint_bytes <$> ins)).
Proof.
  revert buf. induction ins as [|i ins IH]; intros buf; simpl.
  - by rewrite app_nil_r.
  - rewrite IH, PutUint32_le32. unfold outpoint_bytes, ReverseBytes.
    by rewrite <- !app_assoc.
Qed.

Lemma SequenceHash_buf_concat (ins : list Input) (buf : list byte) :
  SequenceHash_buf (Some <$> ins) buf = Ok (buf ++ concat (sequence_bytes <$> ins)).
Proof.
  revert buf. induction ins as [|i ins IH]; intros buf; simpl.
  - by rewrite app_nil_r.
  - rewrite IH, PutUint32_le32. unfold sequence_bytes. by rewrite <- !app_assoc.
Qed.

(** Every input adds 4 bytes to the sequence preimage. *)
Lemma sequence_preimage_length (ins : list Input) :
  length (concat (sequence_bytes <$> ins)) = (4 * length ins)%nat.
Proof.
  induction ins as [|i ins IH]; [done |].
  change (concat (sequence_bytes <$> i :: ins))
    with (sequence_bytes i ++ concat (sequence_bytes <$> ins)).
  rewrite length_app, IH. simpl. lia.
Qed.

(** C8: [PreviousOutHash] is the double hash of the inputs' outpoints
    (identifier byte-reversed, index in 4 little-endian bytes) in order,
    [SequenceHash] the double hash of their sequence numbers in 4
    little-endian bytes; transactions with the same inputs have the same
    two digests. *)
Theorem PreviousOutHash_SequenceHash_digest (Sha256 : list byte -> list byte)
        (ins : list Input) (outs : list (option Output.t)) :
  PreviousOutHash Sha256 (mkTx (Some <$> ins) outs)
  = Ok (Sha256 (Sha256 (concat (outpoint_bytes <$> ins))))
  /\ SequenceHash Sha256 (mkTx (Some <$> ins) outs)
     = Ok (Sha256 (Sha256 (concat (sequence_bytes <$> ins))))
  /\ (forall tx1 tx2 : Transaction,
        Inputs tx1 = Inputs tx2 ->
        PreviousOutHash Sha256 tx1 = PreviousOutHash Sha256 tx2
        /\ SequenceHash Sha256 tx1 = SequenceHash Sha256 tx2).
Proof.
  repeat split.
  - unfold PreviousOutHash. simpl. by rewrite PreviousOutHash_buf_concat.
  - unfold SequenceHash. simpl. by rewrite SequenceHash_buf_concat.
  - unfold PreviousOutHash. by rewrite H.
  - unfold SequenceHash. by rewrite H.
Qed.

Lemma PreviousOutHash_SequenceHash_digest_witness :
  PreviousOutHash sample_digest sample_tx
  = PreviousOutHash sample_digest (mkTx (Inputs sample_tx) [Some (Output.Build 1000 None)])
  /\ SequenceHash sample_digest sample_tx
     = SequenceHash sample_digest (mkTx (Inputs sample_tx) [Some (Output.Build 1000 None)]).
Proof.
  exact (proj2 (proj2 (PreviousOutHash_SequenceHash_digest sample_digest [] []))
               sample_tx (mkTx (Inputs sample_tx) [Some (Output.Build 1000 None)])
               eq_refl).
Defined.

(** ** Hexadecimal text *)

Lemma fromHexChar_hexDigit (d : Z) : 0 <= d < 16 -> fromHexChar (hexDigit d) = Some d.
Proof.
  intros Hd.
  assert (d = 0 \/ d = 1 \/ d = 2 \/ d = 3 \/ d = 4 \/ d = 5 \/ d = 6 \/ d = 7 \/
          d = 8 \/ d = 9 \/ d = 10 \/ d = 11 \/ d = 12 \/ d = 13 \/ d = 14 \/ d = 15)
    as Hcases by lia.
  repeat (destruct Hcases as [-> | Hcases]; [reflexivity |]).
  subst d. reflexivity.
Qed.

Lemma byte_of_nibbles (b : Z) : Z.lor (Z.shiftl (Z.shiftr b 4) 4) (Z.land b 15) = b.
Proof.
  apply Z.bits_inj'. intros n Hn.
  rewrite Z.lor_spec, Z.land_spec. change 15 with (Z.ones 4).
  destruct (Z.lt_ge_cases n 4) as [Hlt | Hge].
  - rewrite Z.shiftl_spec_low by lia. rewrite Z.ones_spec_low by lia.
    simpl. by rewrite andb_true_r.
  - rewrite Z.shiftl_spec by lia. rewrite Z.shiftr_spec by lia.
    rewrite Z.ones_spec_high by lia.
    replace (n - 4 + 4) with n by lia.
    by rewrite andb_false_r, orb_false_r.
Qed.

Lemma nibbles_in_range (b : Z) :
  is_byte b -> 0 <= Z.shiftr b 4 < 16 /\ 0 <= Z.land b 15 < 16.
Proof.
  unfold is_byte. intros Hb. split.
  - rewrite Z.shiftr_div_pow2 by lia. change (2 ^ 4) with 16.
    split; [apply Z.div_pos; lia | apply Z.div_lt_upper_bound; lia].
  - change 15 with (Z.ones 4). rewrite Z.land_ones by lia.
    apply Z.mod_pos_bound. lia.
Qed.

(** Decoding what [hex.EncodeToString] wrote gives the bytes back. *)
Lemma hex_DecodeString_EncodeToString (bs : list byte) :
  Forall is_byte bs -> hex_DecodeString (hex_EncodeToString bs) = Ok bs.
Proof.
  induction 1 as [|b bs Hb _ IH]; [reflexivity |].
  destruct (nibbles_in_range b Hb) as [Hhi Hlo].
  cbn [hex_EncodeToString hex_DecodeString].
  rewrite (fromHexChar_hexDigit _ Hhi), (fromHexChar_hexDigit _ Hlo), IH.
  by rewrite byte_of_nibbles.
Qed.

(** Text of odd length does not decode. *)
Lemma hex_DecodeString_odd (c : ascii) : exists e, hex_DecodeString (String c "") = Fail (Err e).
Proof. simpl. destruct (fromHexChar c); eauto. Qed.

(** ** Adding inputs *)

Section From.

Variable IsValidTxID : list byte -> bool.

Lemma FromUTXOs_valid (t : Transaction) (us : list UTXO.t) :
  Forall (fun u => IsValidTxID (UTXO.TxID u) = true) us ->
  FromUTXOs IsValidTxID t (Some <$> us)
  = (mkTx (Inputs t ++ (Some ∘ input_of_utxo <$> us)) (Outputs t), Ok tt).
Proof.
  intros Hvalid. revert t.
  induction Hvalid as [|u us Hu _ IH]; intros t.
  - simpl. rewrite app_nil_r. by destruct t.
  - cbn [fmap list_fmap FromUTXOs]. unfold PreviousTxIDAdd. rewrite Hu.
    rewrite IH. simpl. by rewrite <- app_assoc.
Qed.

(** Whatever [FromUTXOs] returns, it has only appended inputs. *)
Lemma FromUTXOs_appends (t : Transaction) (utxos : list (option UTXO.t)) :
  exists added : list Input,
    fst (FromUTXOs IsValidTxID t utxos)
    = mkTx (Inputs t ++ (Some <$> added)) (Outputs t).
Proof.
  revert t. induction utxos as [|[u|] utxos IH]; intros t.
  - exists []. simpl. rewrite app_nil_r. by destruct t.
  - cbn [FromUTXOs]. unfold PreviousTxIDAdd.
    destruct (IsValidTxID (UTXO.TxID u)).
    + destruct (IH (addInput t (Some (input_of_utxo u)))) as [added Hadded].
      exists (input_of_utxo u :: added).
      unfold input_of_utxo in *. simpl in *. rewrite Hadded.
      by rewrite <- app_assoc.
    + exists []. simpl. rewrite app_nil_r. by destruct t.
  - exists []. simpl. rewrite app_nil_r. by destruct t.
Qed.

(** [From] on texts that decode: one input, or [ErrInvalidTxID]. *)
Lemma From_decoded (t : Transaction) (prevTxID : string) (vout : Z)
      (prevTxLockingScript : string) (satoshis : Z) (pti pts : list byte) :
  hex_DecodeString prevTxID = Ok pti ->
  NewFromHexString prevTxLockingScript = Ok pts ->
  From IsValidTxID t prevTxID vout prevTxLockingScript satoshis
  = if IsValidTxID pti
    then (addInput t (Some (mkInput pti satoshis (Some pts) None vout
                                    DefaultSequenceNumber)),
          Ok tt)
    else (t, Fail (Err ErrInvalidTxID)).
Proof.
  intros Hid Hscript. unfold From. rewrite Hscript, Hid. simpl.
  unfold PreviousTxIDAdd. simpl. by destruct (IsValidTxID pti).
Qed.

(** C7, amended: when both texts decode and the identifier passes the
    check of [PreviousTxIDAdd], [From] appends exactly one input, with the
    decoded identifier and script, the given index and value, the sequence
    number 0xFFFFFFFF and no unlocking script; when both decode and the
    identifier does not pass, [From] returns [ErrInvalidTxID] and appends
    nothing; when a text does not decode, [From] returns that decoding
    error (the script's first) and appends nothing. *)
Theorem From_appends_decoded (t : Transaction) (prevTxID : string) (vout : Z)
        (prevTxLockingScript : string) (satoshis : Z) :
  (forall pti pts,
      hex_DecodeString prevTxID = Ok pti ->
      NewFromHexString prevTxLockingScript = Ok pts ->
      IsValidTxID pti = true ->
      From IsValidTxID t prevTxID vout prevTxLockingScript satoshis
      = (mkTx (Inputs t ++ [Some {| previousTxID := pti;
                                    PreviousTxSatoshis := satoshis;
                                    PreviousTxScript := Some pts;
                                    UnlockingScript := None;
                                    PreviousTxOutIndex := vout;
                                    SequenceNumber := 0xFFFFFFFF |}])
              (Outputs t),
         Ok tt))
  /\ (forall pti pts,
         hex_DecodeString prevTxID = Ok pti ->
         NewFromHexString prevTxLockingScript = Ok pts ->
         IsValidTxID pti = false ->
         From IsValidTxID t prevTxID vout prevTxLockingScript satoshis
         = (t, Fail (Err ErrInvalidTxID)))
  /\ (forall f,
         NewFromHexString prevTxLockingScript = Fail f ->
         From IsValidTxID t prevTxID vout prevTxLockingScript satoshis = (t, Fail f))
  /\ (forall pts f,
         NewFromHexString prevTxLockingScript = Ok pts ->
         hex_DecodeString prevTxID = Fail f ->
         From IsValidTxID t prevTxID vout prevTxLockingScript satoshis = (t, Fail f)).
Proof.
  repeat split.
  - intros pti pts Hid Hscript Hvalid.
    by rewrite (From_decoded _ _ _ _ _ _ _ Hid Hscript), Hvalid.
  - intros pti pts Hid Hscript Hvalid.
    by rewrite (From_decoded _ _ _ _ _ _ _ Hid Hscript), Hvalid.
  - unfold From. by intros f ->.
  - unfold From. by intros pts f -> ->.
Qed.

(** X26: the round trip through hexadecimal text: [From], given an
    identifier and a locking script as [hex.EncodeToString] writes them,
    returns nil and has appended the input with these very bytes, when the
    identifier passes the check on identifiers. *)
Corollary From_round_trip (t : Transaction) (pti pts : list byte) (vout satoshis : Z) :
  Forall is_byte pti -> Forall is_byte pts -> IsValidTxID pti = true ->
  From IsValidTxID t (hex_EncodeToString pti) vout (hex_EncodeToString pts) satoshis
  = (addInput t (Some (mkInput pti satoshis (Some pts) None vout DefaultSequenceNumber)),
     Ok tt).
Proof.
  intros Hid Hscript Hvalid.
  rewrite (From_decoded t _ vout _ satoshis pti pts), Hvalid; [done | |];
    by apply hex_DecodeString_EncodeToString.
Qed.

End From.

Lemma From_appends_decoded_witness :
  exists pti pts,
    hex_DecodeString sample_txid_hex = Ok pti
    /\ NewFromHexString sample_script_hex = Ok pts
    /\ length pti = 32%nat
    /\ From txid_is_32_bytes empty_tx sample_txid_hex 0 sample_script_hex 1500
       = (mkTx [Some (mkInput pti 1500 (Some pts) None 0 0xFFFFFFFF)] [], Ok tt).
Proof.
  destruct (hex_DecodeString sample_txid_hex) as [pti|] eqn:Hid; [| discriminate Hid].
  destruct (NewFromHexString sample_script_hex) as [pts|] eqn:Hscript;
    [| discriminate Hscript].
  assert (txid_is_32_bytes pti = true) as Hvalid
      by (vm_compute in Hid; injection Hid as <-; reflexivity).
  exists pti, pts. repeat split.
  - by apply Nat.eqb_eq.
  - exact (proj1 (From_appends_decoded txid_is_32_bytes empty_tx sample_txid_hex 0
                                       sample_script_hex 1500)
                 pti pts Hid Hscript Hvalid).
Defined.

(** C7 as stated fails: the texts "00" and "" both decode, and [From]
    appends no input and returns an error that is no decoding error. *)
Lemma From_refuses_short_identifier :
  hex_DecodeString "00" = Ok [0]
  /\ NewFromHexString "" = Ok []
  /\ From txid_is_32_bytes empty_tx "00" 0 "" 0 = (empty_tx, Fail (Err ErrInvalidTxID)).
Proof. repeat split. Qed.

(** ** Funding *)

Lemma TotalInputSatoshis_loop_app (l1 l2 : list (option Input)) (total : Z) :
  TotalInputSatoshis_loop (l1 ++ l2) total
  = match TotalInputSatoshis_loop l1 total with
    | Ok x => TotalInputSatoshis_loop l2 x
    | Fail f => Fail f
    end.
Proof.
  revert total. induction l1 as [|[i|] l1 IH]; intros total; simpl; [done | apply IH | done].
Qed.

Lemma TotalInputSatoshis_loop_range (l : list (option Input)) (total x : Z) :
  is_uint64 total -> TotalInputSatoshis_loop l total = Ok x -> is_uint64 x.
Proof.
  revert total. induction l as [|[i|] l IH]; intros total Htotal; simpl.
  - by intros [= <-].
  - apply IH. unfold wrap64, is_uint64. apply Z.mod_pos_bound. lia.
  - discriminate.
Qed.

Lemma TotalOutputSatoshis_loop_range (l : list (option Output.t)) (total x : Z) :
  is_uint64 total -> TotalOutputSatoshis_loop l total = Ok x -> is_uint64 x.
Proof.
  revert total. induction l as [|[o|] l IH]; intros total Htotal; simpl.
  - by intros [= <-].
  - apply IH. unfold wrap64, is_uint64. apply Z.mod_pos_bound. lia.
  - discriminate.
Qed.

Lemma wrap64_small (z : Z) : is_uint64 z -> wrap64 z = z.
Proof. unfold is_uint64, wrap64. intros H. by apply Z.mod_small. Qed.

Lemma sum_satoshis_input_of_utxo (us : list UTXO.t) :
  sum_satoshis (input_of_utxo <$> us) = sum_utxos us.
Proof.
  unfold sum_satoshis, sum_utxos.
  induction us as [|u us IH]; simpl; [done | by f_equal].
Qed.

Lemma errors_Is_refl (e : error) : errors_Is e e = true.
Proof. destruct e; cbn [errors_Is]; case_decide; congruence. Qed.

Section Funding.

Context {W FeeQuote : Type}.
Variable IsValidTxID : list byte -> bool.
Variable EstimateFee : FeeQuote -> Transaction -> result Z.
Variable fq : FeeQuote.
Variable next : UTXOGetterFunc W.

Local Abbreviation deficit_of := (estimateDeficit EstimateFee fq).
Local Abbreviation body := (Fund_body IsValidTxID EstimateFee fq next).
Local Abbreviation loop fuel := (Fund_loop IsValidTxID EstimateFee fuel fq next).
Local Abbreviation fund fuel := (Fund IsValidTxID EstimateFee fuel fq next).
Local Abbreviation rounds := (Fund_rounds IsValidTxID EstimateFee fq next).

Lemma extends_refl (st : State W) : extends st st.
Proof. exists []. simpl. rewrite app_nil_r. by destruct (tx st). Qed.

Lemma extends_same_tx (st st' : State W) : tx st' = tx st -> extends st st'.
Proof.
  intros Heq. exists []. rewrite Heq. simpl. rewrite app_nil_r. by destruct (tx st).
Qed.

Lemma extends_trans (st1 st2 st3 : State W) :
  extends st1 st2 -> extends st2 st3 -> extends st1 st3.
Proof.
  intros [a1 H1] [a2 H2]. exists (a1 ++ a2).
  rewrite H2, H1. simpl. by rewrite fmap_app, app_assoc.
Qed.

Lemma Fund_loop_zero (fuel : nat) (st : State W) : loop fuel 0 st = (st, Ok 0).
Proof. by destruct fuel. Qed.

(** One round: the source is called once, with the deficit, and the
    transaction only grows. *)
Lemma Fund_body_frame (d : Z) (st : State W) :
  extends st (fst (body d st))
  /\ calls (fst (body d st)) = calls st ++ [CallNext d].
Proof.
  unfold Fund_body.
  destruct (next (world st) d) as [w [utxos | [e | p |]]].
  - pose proof (FromUTXOs_appends IsValidTxID (tx st) utxos) as Happ.
    cbn [tx called].
    destruct (FromUTXOs IsValidTxID (tx st) utxos) as [t [[] | f]];
      simpl in Happ.
    + destruct (deficit_of t); simpl; split; done.
    + simpl; split; done.
  - destruct (errors_Is e ErrNoUTXO); simpl; split; auto using extends_same_tx.
  - simpl; split; auto using extends_same_tx.
  - simpl; split; auto using extends_same_tx.
Qed.

Lemma Fund_loop_frame (fuel : nat) (d : Z) (st : State W) :
  extends st (fst (loop fuel d st))
  /\ exists ds, calls (fst (loop fuel d st)) = calls st ++ (CallNext <$> ds).
Proof.
  revert d st. induction fuel as [|fuel IH]; intros d st; simpl.
  - destruct (d =? 0); simpl; (split; [apply extends_refl | exists []; by rewrite app_nil_r]).
  - destruct (d =? 0); simpl;
      [split; [apply extends_refl | exists []; by rewrite app_nil_r] |].
    destruct (Fund_body_frame d st) as [Hext Hcalls].
    destruct (body d st) as [st1 [d1 | | f]]; simpl in *.
    + destruct (IH d1 st1) as [Hext1 [ds Hcalls1]]. split.
      * eapply extends_trans; eauto.
      * exists (d :: ds). rewrite Hcalls1, Hcalls. by rewrite <- app_assoc.
    + split; [done | by exists [d]].
    + split; [done | by exists [d]].
Qed.

(** More fuel only carries the run further. *)
Lemma Fund_loop_more_fuel (fuel : nat) (d : Z) (st : State W) :
  extends (fst (loop fuel d st)) (fst (loop (S fuel) d st)).
Proof.
  revert d st. induction fuel as [|fuel IH]; intros d st.
  - cbn [Fund_loop]. destruct (d =? 0) eqn:Hd; [apply extends_refl |].
    simpl. pose proof (Fund_body_frame d st) as [Hext _].
    destruct (body d st) as [st1 [d1 | | f]]; simpl in *; [| done | done].
    destruct (d1 =? 0); done.
  - change (loop (S (S fuel)) d st)
      with (if d =? 0 then (st, Ok d)
            else match body d st with
                 | (st', Next d') => loop (S fuel) d' st'
                 | (st', Break) => (st', Ok d)
                 | (st', Return f) => (st', Fail f)
                 end).
    change (loop (S fuel) d st)
      with (if d =? 0 then (st, Ok d)
            else match body d st with
                 | (st', Next d') => loop fuel d' st'
                 | (st', Break) => (st', Ok d)
                 | (st', Return f) => (st', Fail f)
                 end).
    destruct (d =? 0); [apply extends_refl |].
    destruct (body d st) as [st1 [d1 | | f]];
      [apply IH | apply extends_refl | apply extends_refl].
Qed.

Lemma Fund_state (fuel : nat) (st : State W) :
  fst (fund fuel st)
  = match deficit_of (tx st) with
    | Ok d => fst (loop fuel d st)
    | Fail _ => st
    end.
Proof.
  unfold Fund. destruct (deficit_of (tx st)) as [d | f]; [| done].
  destruct (loop fuel d st) as [st' [d' | f]]; [| done].
  by destruct (d' =? 0).
Qed.

(** C9: [Fund] leaves the outputs as they are and the inputs it found where
    and as they are; it only appends inputs at the end.  This holds of the
    state it returns with and of every state it passes through (the state
    at which a smaller fuel stops). *)
Theorem Fund_only_appends_inputs (fuel : nat) (st : State W) :
  (exists added : list Input,
      tx (fst (fund fuel st))
      = mkTx (Inputs (tx st) ++ (Some <$> added)) (Outputs (tx st)))
  /\ (exists later : list Input,
         tx (fst (fund (S fuel) st))
         = mkTx (Inputs (tx (fst (fund fuel st))) ++ (Some <$> later))
                (Outputs (tx (fst (fund fuel st))))).
Proof.
  rewrite !Fund_state. destruct (deficit_of (tx st)) as [d | f].
  - split; [apply Fund_loop_frame | apply Fund_loop_more_fuel].
  - split; apply extends_refl.
Qed.

Lemma Fund_loop_rounds (n fuel : nat) (d d' : Z) (st st' : State W) :
  rounds n d st d' st' -> loop (n + fuel) d st = loop fuel d' st'.
Proof.
  induction 1 as [d st | n d d1 d2 st st1 st2 Hd Hbody _ IH]; [done |].
  change (S n + fuel)%nat with (S (n + fuel)). cbn [Fund_loop].
  apply Z.eqb_neq in Hd. by rewrite Hd, Hbody.
Qed.

Lemma Fund_rounds_frame (n : nat) (d d' : Z) (st st' : State W) :
  rounds n d st d' st' ->
  extends st st'
  /\ exists ds, length ds = n /\ calls st' = calls st ++ (CallNext <$> ds).
Proof.
  induction 1 as [d st | n d d1 d2 st st1 st2 Hd Hbody _ [Hext [ds [Hlen Hcalls]]]].
  - split; [apply extends_refl | exists []; by rewrite app_nil_r].
  - destruct (Fund_body_frame d st) as [Hext1 Hcalls1]. rewrite Hbody in *.
    simpl in *. split; [by eapply extends_trans |].
    exists (d :: ds). split; [simpl; by rewrite Hlen |].
    rewrite Hcalls, Hcalls1. by rewrite <- app_assoc.
Qed.

(** A round in which the source fails. *)
Lemma Fund_loop_source_fails (fuel : nat) (d : Z) (st : State W) (w : W) (e : error) :
  d <> 0 -> next (world st) d = (w, Fail (Err e)) ->
  loop (S fuel) d st
  = if errors_Is e ErrNoUTXO
    then (called (CallNext d) w st, Ok d)
    else (called (CallNext d) w st, Fail (Err e)).
Proof.
  intros Hd Hnext. cbn [Fund_loop]. apply Z.eqb_neq in Hd. rewrite Hd.
  unfold Fund_body. rewrite Hnext. by destruct (errors_Is e ErrNoUTXO).
Qed.

(** C3: when the source signals exhaustion while the deficit is not zero,
    on its first call or after any number of rounds, [Fund] fails with
    [ErrInsufficientFunds], which is not the exhaustion error; when the
    deficit has reached zero the source is not asked again and [Fund]
    succeeds. *)
Theorem Fund_exhausted (n fuel : nat) (d dk : Z) (st stk : State W) :
  deficit_of (tx st) = Ok d ->
  rounds n d st dk stk ->
  (forall w e,
      dk <> 0 ->
      next (world stk) dk = (w, Fail (Err e)) ->
      errors_Is e ErrNoUTXO = true ->
      fund (n + S fuel) st
      = (called (CallNext dk) w stk, Fail (Err ErrInsufficientFunds)))
  /\ (dk = 0 -> fund (n + fuel) st = (stk, Ok tt))
  /\ errors_Is ErrInsufficientFunds ErrNoUTXO = false.
Proof.
  intros Hdeficit Hrounds. unfold Fund. rewrite Hdeficit. repeat split.
  - intros w e Hdk Hnext Hexhausted.
    rewrite (Fund_loop_rounds _ _ _ _ _ _ Hrounds).
    rewrite (Fund_loop_source_fails _ _ _ _ _ Hdk Hnext), Hexhausted.
    apply Z.eqb_neq in Hdk. by rewrite Hdk.
  - intros ->. rewrite (Fund_loop_rounds _ _ _ _ _ _ Hrounds).
    by rewrite Fund_loop_zero.
Qed.

(** C4: when the source returns an error that is not the exhaustion signal,
    on its first call or after any number of rounds, [Fund] returns that
    very error; the transaction is the one the earlier rounds left, with
    their inputs; the failing call is the last call of the source. *)
Theorem Fund_source_error (n fuel : nat) (d dk : Z) (st stk : State W)
        (w : W) (e : error) :
  deficit_of (tx st) = Ok d ->
  rounds n d st dk stk ->
  dk <> 0 ->
  next (world stk) dk = (w, Fail (Err e)) ->
  errors_Is e ErrNoUTXO = false ->
  fund (n + S fuel) st = (mkState (tx stk) w (calls stk ++ [CallNext dk]), Fail (Err e))
  /\ extends st stk
  /\ exists ds, length ds = n /\ calls stk = calls st ++ (CallNext <$> ds).
Proof.
  intros Hdeficit Hrounds Hdk Hnext Hhard. split.
  - unfold Fund. rewrite Hdeficit.
    rewrite (Fund_loop_rounds _ _ _ _ _ _ Hrounds).
    by rewrite (Fund_loop_source_fails _ _ _ _ _ Hdk Hnext), Hhard.
  - by apply Fund_rounds_frame with (d := d) (d' := dk).
Qed.

(** The deficit after UTXOs worth exactly the deficit have been added,
    when the fee estimate has not grown. *)
Lemma estimateDeficit_covered (t : Transaction) (d outs fee fee' : Z) (new : list Input) :
  deficit_of t = Ok d -> d <> 0 ->
  sum_satoshis new = d ->
  TotalOutputSatoshis t = Ok outs ->
  EstimateFee fq t = Ok fee ->
  outs + fee < 2 ^ 64 ->
  EstimateFee fq (mkTx (Inputs t ++ (Some <$> new)) (Outputs t)) = Ok fee' ->
  0 <= fee' <= fee ->
  deficit_of (mkTx (Inputs t ++ (Some <$> new)) (Outputs t)) = Ok 0.
Proof.
  unfold estimateDeficit, TotalOutputSatoshis, TotalInputSatoshis.
  intros Hdeficit Hd Hsum Houts Hfee Hsmall Hfee' Hle. simpl.
  rewrite Houts, Hfee in Hdeficit. rewrite Houts, Hfee'.
  rewrite TotalInputSatoshis_loop_app.
  destruct (TotalInputSatoshis_loop (Inputs t) 0) as [ins | f] eqn:Hins;
    [| discriminate Hdeficit].
  assert (is_uint64 ins) as Hrange
      by (eapply TotalInputSatoshis_loop_range; [| exact Hins]; unfold is_uint64; lia).
  assert (is_uint64 outs) as Horange
      by (eapply TotalOutputSatoshis_loop_range; [| exact Houts]; unfold is_uint64; lia).
  rewrite <- (wrap64_small ins Hrange) at 1. rewrite TotalInputSatoshis_loop_sum.
  unfold is_uint64 in *.
  rewrite (wrap64_small (outs + fee)) in Hdeficit by (unfold is_uint64; lia).
  rewrite (wrap64_small (outs + fee')) by (unfold is_uint64; lia).
  destruct (ins <? outs + fee) eqn:Hlt; injection Hdeficit as Hdeficit; [| lia].
  apply Z.ltb_lt in Hlt.
  rewrite wrap64_small by (unfold is_uint64; lia).
  destruct (ins + sum_satoshis new <? outs + fee') eqn:Hlt'; [| done].
  apply Z.ltb_lt in Hlt'. lia.
Qed.

(** C2, amended: when the deficit is not zero, the first call of the source
    returns UTXOs (none nil, their identifiers accepted) whose values sum to
    exactly the deficit, the fee estimate of the transaction with these
    inputs is no larger than the estimate before, and outputs plus fee fit
    64 bits, [Fund] succeeds, has called the source exactly once, and the
    deficit recomputed after the round is zero. *)
Theorem Fund_exact_cover (fuel : nat) (st : State W) (d : Z) (w : W)
        (us : list UTXO.t) (outs fee fee' : Z) (t' : Transaction) :
  deficit_of (tx st) = Ok d ->
  d <> 0 ->
  next (world st) d = (w, Ok (Some <$> us)) ->
  sum_utxos us = d ->
  Forall (fun u => IsValidTxID (UTXO.TxID u) = true) us ->
  t' = mkTx (Inputs (tx st) ++ (Some <$> (input_of_utxo <$> us))) (Outputs (tx st)) ->
  TotalOutputSatoshis (tx st) = Ok outs ->
  EstimateFee fq (tx st) = Ok fee ->
  outs + fee < 2 ^ 64 ->
  EstimateFee fq t' = Ok fee' ->
  0 <= fee' <= fee ->
  fund (S fuel) st = (mkState t' w (calls st ++ [CallNext d]), Ok tt)
  /\ deficit_of t' = Ok 0.
Proof.
  intros Hdeficit Hd Hnext Hsum Hvalid -> Houts Hfee Hsmall Hfee' Hle.
  assert (deficit_of
            (mkTx (Inputs (tx st) ++ (Some <$> (input_of_utxo <$> us))) (Outputs (tx st)))
          = Ok 0) as Hzero.
  { eapply estimateDeficit_covered; eauto. by rewrite sum_satoshis_input_of_utxo. }
  split; [| exact Hzero].
  unfold Fund. rewrite Hdeficit. cbn [Fund_loop].
  pose proof Hd as Hd'. apply Z.eqb_neq in Hd'. rewrite Hd'.
  unfold Fund_body. rewrite Hnext. cbn [tx called].
  rewrite (FromUTXOs_valid IsValidTxID (tx st) us Hvalid).
  rewrite <- list_fmap_compose in Hzero. rewrite Hzero.
  rewrite Fund_loop_zero. simpl. unfold with_tx, called. simpl.
  by rewrite <- list_fmap_compose.
Qed.

End Funding.

Lemma Fund_exhausted_witness :
  Fund txid_is_32_bytes flat_fee 1 tt depleted (mkState unfunded_tx O [])
  = (mkState unfunded_tx 1%nat [CallNext 110], Fail (Err ErrInsufficientFunds)).
Proof.
  apply (proj1 (Fund_exhausted txid_is_32_bytes flat_fee tt depleted 0 0 110 110
                               (mkState unfunded_tx O []) (mkState unfunded_tx O [])
                               eq_refl (Fund_rounds_O _ _ _ _ _ _))
               1%nat ErrNoUTXO).
  - discriminate.
  - reflexivity.
  - reflexivity.
Defined.

Lemma Fund_source_error_witness :
  Fund txid_is_32_bytes flat_fee 2 tt failing_source (mkState unfunded_tx O [])
  = (mkState (mkTx [Some (input_of_utxo (utxo_worth 60))] (Outputs unfunded_tx))
             2%nat [CallNext 110; CallNext 50],
     Fail (Err (External "connection refused"))).
Proof.
  refine (proj1 (Fund_source_error
                   txid_is_32_bytes flat_fee tt failing_source 1 0 110 50
                   (mkState unfunded_tx O [])
                   (mkState (mkTx [Some (input_of_utxo (utxo_worth 60))]
                                  (Outputs unfunded_tx))
                            1%nat [CallNext 110])
                   2%nat (External "connection refused")
                   eq_refl _ _ eq_refl eq_refl)).
  - eapply Fund_rounds_S; [discriminate | reflexivity | apply Fund_rounds_O].
  - discriminate.
Defined.

Lemma Fund_exact_cover_witness :
  Fund txid_is_32_bytes flat_fee 1 tt one_exact_utxo (mkState unfunded_tx O [])
  = (mkState (mkTx [Some (input_of_utxo (utxo_worth 110))] (Outputs unfunded_tx))
             1%nat [CallNext 110],
     Ok tt)
  /\ estimateDeficit flat_fee tt
       (mkTx [Some (input_of_utxo (utxo_worth 110))] (Outputs unfunded_tx))
     = Ok 0.
Proof.
  apply (Fund_exact_cover txid_is_32_bytes flat_fee tt one_exact_utxo 0
                          (mkState unfunded_tx O []) 110 1%nat [utxo_worth 110]
                          100 10 10).
  - reflexivity.
  - discriminate.
  - reflexivity.
  - reflexivity.
  - repeat constructor.
  - reflexivity.
  - reflexivity.
  - reflexivity.
  - reflexivity.
  - reflexivity.
  - lia.
Defined.

(** C2 as stated fails: with a fee of 10 satoshis per input and outputs of
    100 the deficit is 100; the source's first answer is worth exactly 100;
    the input it adds raises the fee, the recomputed deficit is 10, the
    source is called a second time, and [Fund] fails. *)
Lemma Fund_exact_utxo_not_enough :
  estimateDeficit fee_per_input tt unfunded_tx = Ok 100
  /\ one_exact_utxo 0%nat 100 = (1%nat, Ok [Some (utxo_worth 100)])
  /\ sum_utxos [utxo_worth 100] = 100
  /\ Fund txid_is_32_bytes fee_per_input 2 tt one_exact_utxo (mkState unfunded_tx O [])
     = (mkState (mkTx [Some (input_of_utxo (utxo_worth 100))] (Outputs unfunded_tx))
                2%nat [CallNext 100; CallNext 10],
        Fail (Err ErrInsufficientFunds))
  /\ estimateDeficit fee_per_input tt
       (mkTx [Some (input_of_utxo (utxo_worth 100))] (Outputs unfunded_tx))
     = Ok 10.
Proof. repeat split. Qed.

(** ** Filling the inputs *)

Section Filling.

Context {W : Type}.

(** C6: without an unlocker [FillInput] fails with [ErrNoUnlocker] and
    leaves the state as it is: no call has been made, no input touched.  With
    an unlocker and flags left at zero it does what it does with the flags
    [ALL|FORKID], that is 0x41: these are the flags the unlocker is called
    with. *)
Theorem FillInput_no_unlocker_default_flags (u : Unlocker.t W) (idx : Z)
        (params : UnlockerParams) (st : State W) :
  FillInput None params st = (st, Fail (Err ErrNoUnlocker))
  /\ FillInput (Some u) (mkParams idx 0) st
     = FillInput (Some u) (mkParams idx sighash_AllForkID) st
  /\ (exists w answer,
         Unlocker.UnlockingScript u (world st) (tx st) (mkParams idx sighash_AllForkID)
         = (w, answer)
         /\ calls (fst (FillInput (Some u) (mkParams idx 0) st))
            = calls st ++ [CallUnlockingScript (tx st) (mkParams idx sighash_AllForkID)
                                               answer])
  /\ sighash_AllForkID = Z.lor 0x01 0x40
  /\ sighash_AllForkID = 0x41.
Proof.
  repeat split.
  unfold FillInput. simpl.
  destruct (Unlocker.UnlockingScript u (world st) (tx st) (mkParams idx sighash_AllForkID))
    as [w answer].
  exists w, answer. split; [done |].
  destruct answer as [s | f]; simpl; [| done].
  by destruct (InsertInputUnlockingScript (tx st) idx s).
Qed.

(** Flags that are set are passed on as they are. *)
Lemma FillInput_flags_kept (u : Unlocker.t W) (params : UnlockerParams) (st : State W) :
  SigHashFlags params <> 0 ->
  exists w answer,
    Unlocker.UnlockingScript u (world st) (tx st) params = (w, answer)
    /\ calls (fst (FillInput (Some u) params st))
       = calls st ++ [CallUnlockingScript (tx st) params answer].
Proof.
  intros Hflags. unfold FillInput. apply Z.eqb_neq in Hflags. rewrite Hflags.
  destruct (Unlocker.UnlockingScript u (world st) (tx st) params) as [w answer].
  exists w, answer. split; [done |].
  destruct answer as [s | f]; simpl; [| done].
  by destruct (InsertInputUnlockingScript (tx st) (InputIdx params) s).
Qed.










(** *** Slots that hold pointers *)









End Filling.



(** The run of the witness: the first input is filled, the getter has no
    unlocker for the second, the first keeps its script. *)
Example FillAllInputs_stops_at_first_failure :
  FillAllInputs (picky_getter (Some [0x6a])) (mkState (mkTx (Some <$> two_inputs) []) O [])
  = (mkState
       (mkTx [Some (mkInput (repeat 0x11 32) 60 (Some [0x51]) (Some [0x51]) 0
                            DefaultSequenceNumber);
              Some (mkInput (repeat 0x22 32) 50 (Some [0x6a]) None 1
                            DefaultSequenceNumber)] [])
       1%nat
       [CallUnlocker (Some [0x51]) None;
        CallUnlockingScript (mkTx (Some <$> two_inputs) [])
                            (mkParams 0 sighash_AllForkID) (Ok (Some [0x51]));
        CallUnlocker (Some [0x6a]) (Some (Err (External "no key for this script")))],
     Fail (Err (External "no key for this script"))).
Proof. reflexivity. Qed.

(** With every unlocker resolved, both inputs are filled, in order. *)
Example FillAllInputs_fills_all :
  getter_calls (calls (fst (FillAllInputs sample_getter
                                          (mkState (mkTx (Some <$> two_inputs) []) O []))))
  = [Some [0x51]; Some [0x6a]]
  /\ unlock_calls (calls (fst (FillAllInputs sample_getter
                                             (mkState (mkTx (Some <$> two_inputs) []) O []))))
     = [mkParams 0 0x41; mkParams 1 0x41]
  /\ snd (FillAllInputs sample_getter (mkState (mkTx (Some <$> two_inputs) []) O []))
     = Ok tt.
Proof. repeat split. Qed.

(** An unlocker asked with flags left at zero sees the flags 0x41. *)
Example FillInput_default_flags_seen :
  match Inputs (tx (fst (FillInput (Some flag_echo_unlocker) (mkParams 0 0)
                                   (mkState sample_tx O [])))) with
  | [Some i] => UnlockingScript i = Some [0x41]
  | _ => False
  end.
Proof. reflexivity. Qed.

(** ** Storing a script: what changes and what does not *)

Lemma unsigned_setUnlockingScript (i : Input) (s : option Script) :
  unsigned (setUnlockingScript i s) = unsigned i.
Proof. reflexivity. Qed.

Lemma InsertInputUnlockingScript_unsigned (t : Transaction) (index : Z)
      (s : option Script) :
  unsigned_tx (fst (InsertInputUnlockingScript t index s)) = unsigned_tx t.
Proof.
  unfold InsertInputUnlockingScript.
  destruct (Inputs t !! Z.to_nat index) as [[i|]|] eqn:Hi; try done.
  unfold unsigned_tx. simpl. f_equal.
  rewrite list_fmap_insert. simpl. rewrite unsigned_setUnlockingScript.
  apply list_insert_id. by rewrite list_lookup_fmap, Hi.
Qed.

(** The readers of the inputs do not look at the unlocking scripts. *)
Lemma TotalInputSatoshis_loop_unsigned (ins : list (option Input)) (total : Z) :
  TotalInputSatoshis_loop (unsigned_slot <$> ins) total = TotalInputSatoshis_loop ins total.
Proof.
  revert total. induction ins as [|[i|] ins IH]; intros total; simpl; try done;
    apply IH.
Qed.

Lemma PreviousOutHash_buf_unsigned (ins : list (option Input)) (buf : list byte) :
  PreviousOutHash_buf (unsigned_slot <$> ins) buf = PreviousOutHash_buf ins buf.
Proof.
  revert buf. induction ins as [|[i|] ins IH]; intros buf; simpl; try done;
    apply IH.
Qed.

Lemma SequenceHash_buf_unsigned (ins : list (option Input)) (buf : list byte) :
  SequenceHash_buf (unsigned_slot <$> ins) buf = SequenceHash_buf ins buf.
Proof.
  revert buf. induction ins as [|[i|] ins IH]; intros buf; simpl; try done;
    apply IH.
Qed.

(** Transactions that differ in unlocking scripts only are read alike. *)
Lemma readers_unsigned (Sha256 : list byte -> list byte) (t t' : Transaction) :
  unsigned_tx t' = unsigned_tx t ->
  TotalInputSatoshis t' = TotalInputSatoshis t
  /\ PreviousOutHash Sha256 t' = PreviousOutHash Sha256 t
  /\ SequenceHash Sha256 t' = SequenceHash Sha256 t
  /\ InputCount t' = InputCount t
  /\ Outputs t' = Outputs t.
Proof.
  unfold unsigned_tx. intros [= Hins Houts].
  unfold TotalInputSatoshis, PreviousOutHash, SequenceHash, InputCount.
  rewrite <- (TotalInputSatoshis_loop_unsigned (Inputs t')),
          <- (PreviousOutHash_buf_unsigned (Inputs t')),
          <- (SequenceHash_buf_unsigned (Inputs t')), Hins.
  rewrite TotalInputSatoshis_loop_unsigned, PreviousOutHash_buf_unsigned,
          SequenceHash_buf_unsigned.
  repeat split; try done.
  apply (f_equal length) in Hins. by rewrite !length_fmap in Hins.
Qed.

(** X1: [InsertInputUnlockingScript] writes one field of one input, the
    one the slot at the index points to.  An input that this slot does not
    point to is as it was, and no input changes in any field but its
    unlocking script.  So a slot that holds another pointer, or nil, reads as
    before, while a slot that holds the same pointer shows the script too.
    A call that does not return nil leaves every input as it was. *)
Theorem InsertInputUnlockingScript_frame (h : Shared.Store) (t : Shared.t) (index : Z)
        (s : option Script) :
  (forall a : address,
      Shared.Inputs t !! Z.to_nat index <> Some (Some a) ->
      fst (Shared.InsertInputUnlockingScript h t index s) a = h a)
  /\ (forall a : address,
         unsigned (fst (Shared.InsertInputUnlockingScript h t index s) a) = unsigned (h a))
  /\ (forall j : nat,
         Shared.Inputs t !! j <> Shared.Inputs t !! Z.to_nat index ->
         Inputs (Shared.view (fst (Shared.InsertInputUnlockingScript h t index s)) t) !! j
         = Inputs (Shared.view h t) !! j)
  /\ (forall j : nat,
         snd (Shared.InsertInputUnlockingScript h t index s) = Ok tt ->
         Shared.Inputs t !! j = Shared.Inputs t !! Z.to_nat index ->
         UnlockingScript
           <$> mjoin (Inputs (Shared.view
                                (fst (Shared.InsertInputUnlockingScript h t index s)) t)
                        !! j)
         = Some s)
  /\ (snd (Shared.InsertInputUnlockingScript h t index s) <> Ok tt ->
      forall a : address, fst (Shared.InsertInputUnlockingScript h t index s) a = h a).
Proof.
  unfold Shared.InsertInputUnlockingScript, Shared.view, Shared.Store in *.
  cbn [Inputs].
  destruct (Shared.Inputs t !! Z.to_nat index) as [[a0|]|] eqn:Hslot; simpl;
    repeat split; try done.
  - intros a Ha. apply fn_lookup_insert_ne. by intros ->.
  - intros a. destruct (decide (a0 = a)) as [-> | Hne].
    + by rewrite fn_lookup_insert.
    + by rewrite fn_lookup_insert_ne.
  - intros j Hj. rewrite !list_lookup_fmap.
    destruct (Shared.Inputs t !! j) as [[b|]|]; simpl; try done.
    rewrite fn_lookup_insert_ne; [done |]. by intros ->.
  - intros j _ Hj. rewrite list_lookup_fmap, Hj. simpl.
    by rewrite fn_lookup_insert.
Qed.

(** X2: the script that [InsertInputUnlockingScript] stored is the one read
    back at that index, nil included; the call returns nil exactly when the
    slot at the index holds an input. *)
Theorem InsertInputUnlockingScript_read_back (t : Transaction) (index : Z)
        (s : option Script) :
  (snd (InsertInputUnlockingScript t index s) = Ok tt
   <-> exists i, Inputs t !! Z.to_nat index = Some (Some i))
  /\ (snd (InsertInputUnlockingScript t index s) = Ok tt ->
      UnlockingScript <$> mjoin (Inputs (fst (InsertInputUnlockingScript t index s))
                                   !! Z.to_nat index)
      = Some s).
Proof.
  unfold InsertInputUnlockingScript.
  destruct (Inputs t !! Z.to_nat index) as [[i|]|] eqn:Hi; simpl.
  - split; [split; eauto |]. intros _.
    rewrite list_lookup_insert_eq by (by eapply lookup_lt_Some). done.
  - split; [split; [done | by intros [? ?]] | done].
  - split; [split; [done | by intros [? ?]] | done].
Qed.

(** X3: two stores one after the other.  When the two slots hold the same
    pointer, and so when the index is the same, only the second script is
    kept; when they hold different pointers, or one of them none, the two
    stores give the same inputs in either order, whether the calls succeed or
    not. *)
Theorem InsertInputUnlockingScript_twice (h : Shared.Store) (t : Shared.t) (i j : Z)
        (s1 s2 : option Script) (a : address) :
  (Shared.Inputs t !! Z.to_nat i = Shared.Inputs t !! Z.to_nat j ->
   fst (Shared.InsertInputUnlockingScript
          (fst (Shared.InsertInputUnlockingScript h t i s1)) t j s2) a
   = fst (Shared.InsertInputUnlockingScript h t j s2) a)
  /\ (Shared.Inputs t !! Z.to_nat i <> Shared.Inputs t !! Z.to_nat j ->
      fst (Shared.InsertInputUnlockingScript
             (fst (Shared.InsertInputUnlockingScript h t i s1)) t j s2) a
      = fst (Shared.InsertInputUnlockingScript
               (fst (Shared.InsertInputUnlockingScript h t j s2)) t i s1) a).
Proof.
  unfold Shared.InsertInputUnlockingScript, Shared.Store in *.
  split; intros Hslots.
  - rewrite <- Hslots.
    destruct (Shared.Inputs t !! Z.to_nat i) as [[x|]|]; simpl; try done.
    rewrite fn_lookup_insert.
    destruct (decide (x = a)) as [-> | Hne].
    + by rewrite !fn_lookup_insert.
    + by rewrite !fn_lookup_insert_ne.
  - destruct (Shared.Inputs t !! Z.to_nat i) as [[x|]|];
      destruct (Shared.Inputs t !! Z.to_nat j) as [[y|]|]; simpl; try done.
    assert (x <> y) as Hxy by (by intros ->).
    rewrite (fn_lookup_insert_ne _ x y) by done.
    rewrite (fn_lookup_insert_ne _ y x) by done.
    destruct (decide (x = a)) as [-> | Hxa]; destruct (decide (y = a)) as [-> | Hya];
      try done;
      rewrite ?fn_lookup_insert, ?fn_lookup_insert_ne by done;
      rewrite ?fn_lookup_insert, ?fn_lookup_insert_ne by done; done.
Qed.

(** X4: what the readers of the inputs return does not depend on the
    unlocking scripts: after [InsertInputUnlockingScript], whatever it
    returned, the total of the inputs, both signature-hash digests and the
    number of inputs are what they were before. *)
Theorem InsertInputUnlockingScript_readers (Sha256 : list byte -> list byte)
        (t : Transaction) (index : Z) (s : option Script) :
  TotalInputSatoshis (fst (InsertInputUnlockingScript t index s)) = TotalInputSatoshis t
  /\ PreviousOutHash Sha256 (fst (InsertInputUnlockingScript t index s))
     = PreviousOutHash Sha256 t
  /\ SequenceHash Sha256 (fst (InsertInputUnlockingScript t index s))
     = SequenceHash Sha256 t
  /\ InputCount (fst (InsertInputUnlockingScript t index s)) = InputCount t.
Proof.
  destruct (readers_unsigned Sha256 t (fst (InsertInputUnlockingScript t index s))
              (InsertInputUnlockingScript_unsigned t index s))
    as (Htotal & Hprev & Hseq & Hcount & _).
  done.
Qed.

Lemma PreviousOutHash_buf_nil (before : list Input) (after : list (option Input))
      (buf : list byte) :
  PreviousOutHash_buf ((Some <$> before) ++ None :: after) buf = Fail (Panic NilDereference).
Proof. revert buf. induction before as [|i before IH]; intros buf; simpl; [done | apply IH]. Qed.

Lemma SequenceHash_buf_nil (before : list Input) (after : list (option Input))
      (buf : list byte) :
  SequenceHash_buf ((Some <$> before) ++ None :: after) buf = Fail (Panic NilDereference).
Proof. revert buf. induction before as [|i before IH]; intros buf; simpl; [done | apply IH]. Qed.

(** X5: a nil slot among the inputs makes each reader of the inputs panic on
    a nil dereference, wherever the slot is: none of them skips it or
    returns an error. *)
Theorem readers_panic_on_nil_input (Sha256 : list byte -> list byte)
        (before : list Input) (after : list (option Input))
        (outs : list (option Output.t)) :
  TotalInputSatoshis (mkTx ((Some <$> before) ++ None :: after) outs)
  = Fail (Panic NilDereference)
  /\ PreviousOutHash Sha256 (mkTx ((Some <$> before) ++ None :: after) outs)
     = Fail (Panic NilDereference)
  /\ SequenceHash Sha256 (mkTx ((Some <$> before) ++ None :: after) outs)
     = Fail (Panic NilDereference).
Proof.
  unfold TotalInputSatoshis, PreviousOutHash, SequenceHash. simpl.
  rewrite PreviousOutHash_buf_nil, SequenceHash_buf_nil.
  repeat split. apply TotalInputSatoshis_loop_nil.
  apply Forall_fmap, Forall_true. by eexists.
Qed.

(** ** Adding inputs: order, failure and composition *)

Lemma PreviousOutHash_buf_app (l1 l2 : list (option Input)) (buf : list byte) :
  PreviousOutHash_buf (l1 ++ l2) buf
  = match PreviousOutHash_buf l1 buf with
    | Ok b => PreviousOutHash_buf l2 b
    | Fail f => Fail f
    end.
Proof. revert buf. induction l1 as [|[i|] l1 IH]; intros buf; simpl; try done; apply IH. Qed.

Lemma SequenceHash_buf_app (l1 l2 : list (option Input)) (buf : list byte) :
  SequenceHash_buf (l1 ++ l2) buf
  = match SequenceHash_buf l1 buf with
    | Ok b => SequenceHash_buf l2 b
    | Fail f => Fail f
    end.
Proof. revert buf. induction l1 as [|[i|] l1 IH]; intros buf; simpl; try done; apply IH. Qed.

Section Adding.

Variable IsValidTxID : list byte -> bool.

Local Abbreviation valid := (fun u => IsValidTxID (UTXO.TxID u) = true).

Lemma FromUTXOs_app (t : Transaction) (us1 us2 : list (option UTXO.t)) :
  FromUTXOs IsValidTxID t (us1 ++ us2)
  = match FromUTXOs IsValidTxID t us1 with
    | (t1, Ok _) => FromUTXOs IsValidTxID t1 us2
    | (t1, Fail f) => (t1, Fail f)
    end.
Proof.
  revert t. induction us1 as [|[u|] us1 IH]; intros t; simpl; try done.
  destruct (PreviousTxIDAdd IsValidTxID (newInput u) (UTXO.TxID u)); [apply IH | done].
Qed.

(** X6: when every identifier is accepted, [FromUTXOs] returns nil and has
    appended one input per UTXO, in the order given, after the inputs that
    were there: the k-th new input carries the identifier, output index,
    value and locking script of the k-th UTXO, the sequence number
    0xFFFFFFFF and no unlocking script. *)
Theorem FromUTXOs_inputs_in_order (t : Transaction) (us : list UTXO.t) :
  Forall valid us ->
  snd (FromUTXOs IsValidTxID t (Some <$> us)) = Ok tt
  /\ InputCount (fst (FromUTXOs IsValidTxID t (Some <$> us)))
     = (InputCount t + length us)%nat
  /\ Outputs (fst (FromUTXOs IsValidTxID t (Some <$> us))) = Outputs t
  /\ (forall j : nat,
         (j < InputCount t)%nat ->
         Inputs (fst (FromUTXOs IsValidTxID t (Some <$> us))) !! j = Inputs t !! j)
  /\ (forall (k : nat) (u : UTXO.t),
         us !! k = Some u ->
         Inputs (fst (FromUTXOs IsValidTxID t (Some <$> us))) !! (InputCount t + k)%nat
         = Some (Some {| previousTxID := UTXO.TxID u;
                         PreviousTxSatoshis := UTXO.Satoshis u;
                         PreviousTxScript := UTXO.LockingScript u;
                         UnlockingScript := None;
                         PreviousTxOutIndex := UTXO.Vout u;
                         SequenceNumber := 0xFFFFFFFF |})).
Proof.
  intros Hvalid. rewrite (FromUTXOs_valid IsValidTxID t us Hvalid).
  unfold InputCount. simpl. repeat split.
  - by rewrite length_app, length_fmap.
  - intros j Hj. by apply lookup_app_l.
  - intros k u Hk. rewrite lookup_app_r by lia.
    replace (length (Inputs t) + k - length (Inputs t))%nat with k by lia.
    by rewrite list_lookup_fmap, Hk.
Qed.

(** X7: [FromUTXOs] stops at the first UTXO it cannot use and does not take
    back what it has appended.  At the first refused identifier it returns
    [ErrInvalidTxID], at a nil UTXO it panics; in both cases the inputs built
    from the UTXOs before it are in the transaction and the UTXOs after it
    are not looked at. *)
Theorem FromUTXOs_stops_at_first_failure (t : Transaction) (good : list UTXO.t)
        (bad : UTXO.t) (rest : list (option UTXO.t)) :
  Forall valid good ->
  IsValidTxID (UTXO.TxID bad) = false ->
  FromUTXOs IsValidTxID t ((Some <$> good) ++ Some bad :: rest)
  = (mkTx (Inputs t ++ (Some ∘ input_of_utxo <$> good)) (Outputs t),
     Fail (Err ErrInvalidTxID))
  /\ FromUTXOs IsValidTxID t ((Some <$> good) ++ None :: rest)
     = (mkTx (Inputs t ++ (Some ∘ input_of_utxo <$> good)) (Outputs t),
        Fail (Panic NilDereference)).
Proof.
  intros Hgood Hbad.
  rewrite !FromUTXOs_app, (FromUTXOs_valid IsValidTxID t good Hgood). simpl.
  unfold PreviousTxIDAdd. by rewrite Hbad.
Qed.

(** X8: adding two batches of UTXOs one after the other is adding them in
    one call: when [FromUTXOs] returns nil for the first batch, a second call
    with the second batch ends as one call with both would. *)
Theorem FromUTXOs_batches (t t1 : Transaction) (us1 us2 : list (option UTXO.t)) :
  FromUTXOs IsValidTxID t us1 = (t1, Ok tt) ->
  FromUTXOs IsValidTxID t (us1 ++ us2) = FromUTXOs IsValidTxID t1 us2.
Proof. intros H1. by rewrite FromUTXOs_app, H1. Qed.

(** X9: after [FromUTXOs] has added UTXOs, [TotalInputSatoshis] is the
    total before plus the values of the UTXOs, modulo 2^64. *)
Theorem TotalInputSatoshis_after_FromUTXOs (t : Transaction) (us : list UTXO.t)
        (total : Z) :
  TotalInputSatoshis t = Ok total ->
  Forall valid us ->
  TotalInputSatoshis (fst (FromUTXOs IsValidTxID t (Some <$> us)))
  = Ok (wrap64 (total + sum_utxos us)).
Proof.
  intros Htotal Hvalid. rewrite (FromUTXOs_valid IsValidTxID t us Hvalid).
  unfold TotalInputSatoshis in *. simpl.
  rewrite TotalInputSatoshis_loop_app, Htotal.
  assert (is_uint64 total) as Hrange.
  { eapply TotalInputSatoshis_loop_range; [| exact Htotal]. unfold is_uint64. lia. }
  rewrite <- (wrap64_small total Hrange) at 1.
  rewrite list_fmap_compose, TotalInputSatoshis_loop_sum.
  by rewrite sum_satoshis_input_of_utxo.
Qed.

(** X10: the preimages of the two signature-hash digests grow at the end:
    after [FromUTXOs] has added UTXOs, [PreviousOutHash] hashes the bytes it
    hashed before followed by the outpoint of each UTXO (identifier
    byte-reversed, output index in 4 little-endian bytes), and
    [SequenceHash] the bytes it hashed before followed by four bytes 0xFF
    per UTXO. *)
Theorem FromUTXOs_extends_preimages (Sha256 : list byte -> list byte)
        (t : Transaction) (us : list UTXO.t) (outpoints sequences : list byte) :
  PreviousOutHash_buf (Inputs t) [] = Ok outpoints ->
  SequenceHash_buf (Inputs t) [] = Ok sequences ->
  Forall valid us ->
  PreviousOutHash Sha256 (fst (FromUTXOs IsValidTxID t (Some <$> us)))
  = Ok (Sha256 (Sha256 (outpoints
                        ++ concat ((fun u => rev (UTXO.TxID u) ++ le32 (UTXO.Vout u))
                                     <$> us))))
  /\ SequenceHash Sha256 (fst (FromUTXOs IsValidTxID t (Some <$> us)))
     = Ok (Sha256 (Sha256 (sequences
                           ++ concat ((fun _ => [0xFF; 0xFF; 0xFF; 0xFF]) <$> us)))).
Proof.
  intros Hprev Hseq Hvalid. rewrite (FromUTXOs_valid IsValidTxID t us Hvalid).
  unfold PreviousOutHash, SequenceHash, Sha256d. simpl.
  rewrite PreviousOutHash_buf_app, SequenceHash_buf_app, Hprev, Hseq.
  rewrite list_fmap_compose, PreviousOutHash_buf_concat, SequenceHash_buf_concat.
  rewrite <- !list_fmap_compose. done.
Qed.

(** X11: [From] does all or nothing: either it returns nil and has appended
    exactly one input, with the given output index and value, the sequence
    number 0xFFFFFFFF and no unlocking script, or it fails and the
    transaction is as it was. *)
Theorem From_all_or_nothing (t : Transaction) (prevTxID : string) (vout : Z)
        (prevTxLockingScript : string) (satoshis : Z) :
  (exists pti pts : list byte,
      From IsValidTxID t prevTxID vout prevTxLockingScript satoshis
      = (mkTx (Inputs t ++ [Some (mkInput pti satoshis (Some pts) None vout 0xFFFFFFFF)])
              (Outputs t),
         Ok tt))
  \/ (exists f : failure,
         From IsValidTxID t prevTxID vout prevTxLockingScript satoshis = (t, Fail f)).
Proof.
  unfold From.
  destruct (NewFromHexString prevTxLockingScript) as [pts | f]; [| right; eauto].
  destruct (hex_DecodeString prevTxID) as [pti | f]; [| right; eauto].
  simpl. unfold PreviousTxIDAdd.
  destruct (IsValidTxID pti); [left | right; eauto].
  by exists pti, pts.
Qed.

End Adding.

Lemma FromUTXOs_inputs_in_order_witness :
  InputCount (fst (FromUTXOs txid_is_32_bytes sample_tx
                     (Some <$> [utxo_worth 60; utxo_worth 50])))
  = 3%nat.
Proof.
  refine (proj1 (proj2 (FromUTXOs_inputs_in_order
                          txid_is_32_bytes sample_tx [utxo_worth 60; utxo_worth 50] _))).
  repeat constructor.
Defined.

Lemma FromUTXOs_stops_at_first_failure_witness :
  FromUTXOs txid_is_32_bytes empty_tx
    [Some (utxo_worth 60); Some short_utxo; Some (utxo_worth 50)]
  = (mkTx [Some (input_of_utxo (utxo_worth 60))] [], Fail (Err ErrInvalidTxID)).
Proof.
  refine (proj1 (FromUTXOs_stops_at_first_failure
                   txid_is_32_bytes empty_tx [utxo_worth 60] short_utxo
                   [Some (utxo_worth 50)] _ eq_refl)).
  repeat constructor.
Defined.

Lemma FromUTXOs_batches_witness :
  FromUTXOs txid_is_32_bytes empty_tx
    ([Some (utxo_worth 60)] ++ [Some (utxo_worth 50); None])
  = FromUTXOs txid_is_32_bytes (mkTx [Some (input_of_utxo (utxo_worth 60))] [])
      [Some (utxo_worth 50); None].
Proof.
  exact (FromUTXOs_batches txid_is_32_bytes empty_tx
           (mkTx [Some (input_of_utxo (utxo_worth 60))] [])
           [Some (utxo_worth 60)] [Some (utxo_worth 50); None] eq_refl).
Defined.

Lemma TotalInputSatoshis_after_FromUTXOs_witness :
  TotalInputSatoshis (fst (FromUTXOs txid_is_32_bytes sample_tx
                             (Some <$> [utxo_worth (2 ^ 64 - 1000); utxo_worth 50])))
  = Ok 550.
Proof.
  refine (TotalInputSatoshis_after_FromUTXOs
            txid_is_32_bytes sample_tx [utxo_worth (2 ^ 64 - 1000); utxo_worth 50] 1500
            eq_refl _).
  repeat constructor.
Defined.

Lemma FromUTXOs_extends_preimages_witness :
  SequenceHash sample_digest
    (fst (FromUTXOs txid_is_32_bytes sample_tx (Some <$> [utxo_worth 60; utxo_worth 50])))
  = Ok (sample_digest (sample_digest
          ([0xFF; 0xFF; 0xFF; 0xFF]
           ++ concat ((fun _ => [0xFF; 0xFF; 0xFF; 0xFF])
                        <$> [utxo_worth 60; utxo_worth 50])))).
Proof.
  refine (proj2 (FromUTXOs_extends_preimages
                   txid_is_32_bytes sample_digest sample_tx
                   [utxo_worth 60; utxo_worth 50] _ [0xFF; 0xFF; 0xFF; 0xFF]
                   eq_refl eq_refl _)).
  repeat constructor.
Defined.

(** ** The preimages determine what is signed *)

Lemma le32_inj (v w : Z) : is_uint32 v -> is_uint32 w -> le32 v = le32 w -> v = w.
Proof.
  intros Hv Hw Heq. rewrite <- !PutUint32_le32 in Heq.
  rewrite <- (Uint32_PutUint32 v Hv), <- (Uint32_PutUint32 w Hw). by rewrite Heq.
Qed.

(** X12: the bytes [SequenceHash] hashes determine the sequence numbers of
    the inputs, one by one and in order: two lists of inputs with the same
    preimage have the same sequence numbers. *)
Theorem SequenceHash_preimage_injective (ins1 ins2 : list Input) :
  Forall (fun i => is_uint32 (SequenceNumber i)) ins1 ->
  Forall (fun i => is_uint32 (SequenceNumber i)) ins2 ->
  SequenceHash_buf (Some <$> ins1) [] = SequenceHash_buf (Some <$> ins2) [] ->
  SequenceNumber <$> ins1 = SequenceNumber <$> ins2.
Proof.
  rewrite !SequenceHash_buf_concat. simpl. intros H1 H2 [= Heq].
  revert ins2 H2 Heq. induction H1 as [|i1 ins1 Hi1 _ IH]; intros ins2 H2 Heq.
  - destruct H2 as [|i2 ins2 _ _]; [done | discriminate Heq].
  - destruct H2 as [|i2 ins2 Hi2 H2]; [discriminate Heq |].
    rewrite !fmap_cons in *.
    change (sequence_bytes i1 ++ concat (sequence_bytes <$> ins1)
            = sequence_bytes i2 ++ concat (sequence_bytes <$> ins2)) in Heq.
    apply app_inj_1 in Heq as [Hhead Htail]; [| done].
    f_equal; [by apply le32_inj | by apply IH].
Qed.

(** X13: when the identifiers are 32 bytes long, the bytes
    [PreviousOutHash] hashes determine the outpoints the inputs spend, one
    by one and in order: two lists of inputs with the same preimage spend
    the same outputs of the same transactions. *)
Theorem PreviousOutHash_preimage_injective (ins1 ins2 : list Input) :
  Forall (fun i => length (PreviousTxID i) = 32%nat /\ is_uint32 (PreviousTxOutIndex i))
         ins1 ->
  Forall (fun i => length (PreviousTxID i) = 32%nat /\ is_uint32 (PreviousTxOutIndex i))
         ins2 ->
  PreviousOutHash_buf (Some <$> ins1) [] = PreviousOutHash_buf (Some <$> ins2) [] ->
  outpoint <$> ins1 = outpoint <$> ins2.
Proof.
  rewrite !PreviousOutHash_buf_concat. simpl. intros H1 H2 [= Heq].
  revert ins2 H2 Heq. induction H1 as [|i1 ins1 [Hlen1 Hidx1] _ IH]; intros ins2 H2 Heq.
  - destruct H2 as [|i2 ins2 [Hlen2 _] _]; [done |].
    rewrite fmap_cons in Heq.
    change ([] = outpoint_bytes i2 ++ concat (outpoint_bytes <$> ins2)) in Heq.
    unfold outpoint_bytes in Heq.
    apply (f_equal length) in Heq. rewrite !length_app, length_rev, Hlen2 in Heq.
    discriminate Heq.
  - destruct H2 as [|i2 ins2 [Hlen2 Hidx2] H2].
    + rewrite fmap_cons in Heq.
      change (outpoint_bytes i1 ++ concat (outpoint_bytes <$> ins1) = []) in Heq.
      unfold outpoint_bytes in Heq.
      apply (f_equal length) in Heq. rewrite !length_app, length_rev, Hlen1 in Heq.
      discriminate Heq.
    + rewrite !fmap_cons in *.
      change ((rev (PreviousTxID i1) ++ le32 (PreviousTxOutIndex i1))
                ++ concat (outpoint_bytes <$> ins1)
              = (rev (PreviousTxID i2) ++ le32 (PreviousTxOutIndex i2))
                  ++ concat (outpoint_bytes <$> ins2)) in Heq.
      apply app_inj_1 in Heq as [Hhead Htail];
        [| by rewrite !length_app, !length_rev, Hlen1, Hlen2].
      apply app_inj_1 in Hhead as [Hid Hidx]; [| by rewrite !length_rev, Hlen1, Hlen2].
      f_equal; [| by apply IH].
      unfold outpoint. f_equal; [| by apply le32_inj].
      apply (f_equal (@rev byte)) in Hid. by rewrite !rev_involutive in Hid.
Qed.

Lemma SequenceHash_preimage_injective_witness :
  SequenceNumber <$> two_inputs
  = SequenceNumber <$> [mkInput [] 7 None (Some [0x51]) 3 0xFFFFFFFF;
                        mkInput [0x01] 0 None None 0 0xFFFFFFFF].
Proof.
  refine (SequenceHash_preimage_injective
            two_inputs
            [mkInput [] 7 None (Some [0x51]) 3 0xFFFFFFFF;
             mkInput [0x01] 0 None None 0 0xFFFFFFFF]
            _ _ eq_refl);
    repeat first [apply List.Forall_cons | apply List.Forall_nil];
    unfold is_uint32, DefaultSequenceNumber; simpl; lia.
Defined.

Lemma PreviousOutHash_preimage_injective_witness :
  outpoint <$> two_inputs
  = outpoint <$> [mkInput (repeat 0x11 32) 7 None (Some [0x51]) 0 5;
                  mkInput (repeat 0x22 32) 0 None None 1 6].
Proof.
  refine (PreviousOutHash_preimage_injective
            two_inputs
            [mkInput (repeat 0x11 32) 7 None (Some [0x51]) 0 5;
             mkInput (repeat 0x22 32) 0 None None 1 6]
            _ _ eq_refl);
    repeat first [apply List.Forall_cons | apply List.Forall_nil];
    (split; [reflexivity | unfold is_uint32, DefaultSequenceNumber; simpl; lia]).
Defined.

(** ** Funding: what a run of the loop guarantees *)

Section MoreFunding.

Context {W FeeQuote : Type}.
Variable IsValidTxID : list byte -> bool.
Variable EstimateFee : FeeQuote -> Transaction -> result Z.
Variable fq : FeeQuote.
Variable next : UTXOGetterFunc W.

Local Abbreviation deficit_of := (estimateDeficit EstimateFee fq).
Local Abbreviation body := (Fund_body IsValidTxID EstimateFee fq next).
Local Abbreviation loop fuel := (Fund_loop IsValidTxID EstimateFee fuel fq next).
Local Abbreviation fund fuel := (Fund IsValidTxID EstimateFee fuel fq next).
Local Abbreviation rounds := (Fund_rounds IsValidTxID EstimateFee fq next).

(** A round that goes on has recomputed the deficit of the transaction it
    leaves. *)
Lemma Fund_body_next (d d1 : Z) (st st1 : State W) :
  body d st = (st1, Next d1) -> deficit_of (tx st1) = Ok d1.
Proof.
  unfold Fund_body. destruct (next (world st) d) as [w [utxos | [e | p |]]]; try done.
  - destruct (FromUTXOs IsValidTxID (tx (called (CallNext d) w st)) utxos) as [t [[] | f]];
      [| done].
    destruct (deficit_of t) as [d' | f] eqn:Hd; [| done].
    by intros [= <- <-].
  - by destruct (errors_Is e ErrNoUTXO).
Qed.

Lemma Fund_body_calls (d : Z) (st : State W) :
  calls (fst (body d st)) = calls st ++ [CallNext d].
Proof. apply Fund_body_frame. Qed.

(** The loop is left with the deficit of the transaction it leaves, or by
    [break] with the deficit it was entered with, which is not zero. *)
Lemma Fund_loop_deficit (fuel : nat) (d d' : Z) (st st' : State W) :
  deficit_of (tx st) = Ok d ->
  loop fuel d st = (st', Ok d') ->
  d' = 0 ->
  deficit_of (tx st') = Ok 0.
Proof.
  revert d st. induction fuel as [|fuel IH]; intros d st Hd Hloop Hzero; simpl in Hloop.
  - destruct (d =? 0) eqn:Hd0; [| done].
    injection Hloop as <- <-. by subst d.
  - destruct (d =? 0) eqn:Hd0.
    + injection Hloop as <- <-. by subst d.
    + destruct (body d st) as [st1 [d1 | | f]] eqn:Hbody.
      * eapply IH; [| exact Hloop | exact Hzero]. by eapply Fund_body_next.
      * injection Hloop as <- <-. apply Z.eqb_neq in Hd0. done.
      * done.
Qed.

(** X14: when [Fund] returns nil the inputs cover the outputs and the fee:
    the deficit estimated for the transaction it leaves is zero. *)
Theorem Fund_success_covers (fuel : nat) (st st' : State W) :
  fund fuel st = (st', Ok tt) -> deficit_of (tx st') = Ok 0.
Proof.
  unfold Fund. destruct (deficit_of (tx st)) as [d | f] eqn:Hd; [| done].
  destruct (loop fuel d st) as [st1 [d1 | f]] eqn:Hloop; [| done].
  destruct (d1 =? 0) eqn:Hd1; [| done].
  intros [= <-]. apply Z.eqb_eq in Hd1.
  by eapply Fund_loop_deficit.
Qed.

Lemma Fund_loop_asks (fuel : nat) (d : Z) (st : State W) :
  exists ds : list Z,
    calls (fst (loop fuel d st)) = calls st ++ (CallNext <$> ds)
    /\ Forall (fun d' => d' <> 0) ds
    /\ (forall d0, head ds = Some d0 -> d0 = d)
    /\ (length ds <= fuel)%nat.
Proof.
  revert d st. induction fuel as [|fuel IH]; intros d st; simpl.
  - exists []. destruct (d =? 0); simpl; rewrite app_nil_r; by repeat split.
  - destruct (d =? 0) eqn:Hd0.
    + exists []. simpl. rewrite app_nil_r. repeat split; [done.. | lia].
    + apply Z.eqb_neq in Hd0.
      pose proof (Fund_body_calls d st) as Hcalls.
      destruct (body d st) as [st1 [d1 | | f]]; simpl in Hcalls.
      * destruct (IH d1 st1) as (ds & Hds & Hnz & _ & Hlen).
        exists (d :: ds). rewrite Hds, Hcalls, <- app_assoc. simpl.
        repeat split; [by constructor | by intros d0 [= <-] | lia].
      * exists [d]. simpl. repeat split;
          [done | by repeat constructor | by intros d0 [= <-] | lia].
      * exists [d]. simpl. repeat split;
          [done | by repeat constructor | by intros d0 [= <-] | lia].
Qed.

(** X15: [Fund] calls nothing but the UTXO source, never with a deficit of
    zero, and at most once per round; the first call carries the deficit
    estimated for the transaction as [Fund] found it. *)
Theorem Fund_asks_for_nonzero_deficits (fuel : nat) (st : State W) :
  exists ds : list Z,
    calls (fst (fund fuel st)) = calls st ++ (CallNext <$> ds)
    /\ Forall (fun d => d <> 0) ds
    /\ (forall d0, head ds = Some d0 -> deficit_of (tx st) = Ok d0)
    /\ (length ds <= fuel)%nat.
Proof.
  rewrite Fund_state. destruct (deficit_of (tx st)) as [d | f].
  - destruct (Fund_loop_asks fuel d st) as (ds & Hds & Hnz & Hhead & Hlen).
    exists ds. repeat split; try done.
    intros d0 H0. by rewrite (Hhead d0 H0).
  - exists []. simpl. rewrite app_nil_r. repeat split; [done.. | lia].
Qed.

(** X16: a source that keeps answering with no UTXO and no error keeps
    [Fund] in its loop for ever when the deficit is not zero: whatever the
    number of rounds allowed, the loop is still running after them, has
    called the source once per round with the same deficit, and the
    transaction is as it was. *)
Theorem Fund_spins_on_empty_answers (fuel : nat) (d : Z) (st : State W) :
  deficit_of (tx st) = Ok d ->
  d <> 0 ->
  (forall w d', snd (next w d') = Ok []) ->
  snd (fund fuel st) = Fail OutOfFuel
  /\ tx (fst (fund fuel st)) = tx st
  /\ calls (fst (fund fuel st)) = calls st ++ repeat (CallNext d) fuel.
Proof.
  intros Hd Hnz Hempty.
  assert (forall st0 : State W,
             tx st0 = tx st ->
             snd (loop fuel d st0) = Fail OutOfFuel
             /\ tx (fst (loop fuel d st0)) = tx st
             /\ calls (fst (loop fuel d st0)) = calls st0 ++ repeat (CallNext d) fuel)
    as Hloop.
  { induction fuel as [|fuel IH]; intros st0 Htx; simpl;
      destruct (d =? 0) eqn:Hd0; try (apply Z.eqb_eq in Hd0; done).
    - simpl. by rewrite app_nil_r.
    - unfold Fund_body. specialize (Hempty (world st0) d).
      destruct (next (world st0) d) as [w r]. simpl in Hempty. subst r.
      cbn [FromUTXOs called tx]. rewrite Htx, Hd.
      destruct (IH (with_tx (tx st) (called (CallNext d) w st0)))
        as (Hsnd & Htx' & Hcalls); [done |].
      repeat split; try done.
      rewrite Hcalls. simpl. by rewrite <- app_assoc. }
  unfold Fund. rewrite Hd.
  destruct (Hloop st eq_refl) as (Hsnd & Htx & Hcalls).
  destruct (loop fuel d st) as [st' [d' | f]]; simpl in *; [done |].
  injection Hsnd as ->. done.
Qed.

(** X17: a batch with a malformed identifier in it ends [Fund] with
    [ErrInvalidTxID], in whatever round it comes; the inputs built from the
    UTXOs of the batch before the malformed one have been added and stay,
    the rest of the batch is dropped, and the source is not called again. *)
Theorem Fund_refused_identifier (n fuel : nat) (d dk : Z) (st stk : State W) (w : W)
        (good : list UTXO.t) (bad : UTXO.t) (rest : list (option UTXO.t)) :
  deficit_of (tx st) = Ok d ->
  rounds n d st dk stk ->
  dk <> 0 ->
  next (world stk) dk = (w, Ok ((Some <$> good) ++ Some bad :: rest)) ->
  Forall (fun u => IsValidTxID (UTXO.TxID u) = true) good ->
  IsValidTxID (UTXO.TxID bad) = false ->
  fund (n + S fuel) st
  = (mkState (mkTx (Inputs (tx stk) ++ (Some ∘ input_of_utxo <$> good)) (Outputs (tx stk)))
             w (calls stk ++ [CallNext dk]),
     Fail (Err ErrInvalidTxID)).
Proof.
  intros Hd Hrounds Hnz Hnext Hgood Hbad.
  unfold Fund. rewrite Hd, (Fund_loop_rounds _ _ _ _ _ _ _ _ _ _ Hrounds).
  simpl. apply Z.eqb_neq in Hnz. rewrite Hnz.
  unfold Fund_body. rewrite Hnext. cbn [called tx].
  rewrite FromUTXOs_app, (FromUTXOs_valid IsValidTxID (tx stk) good Hgood). simpl.
  unfold PreviousTxIDAdd. by rewrite Hbad.
Qed.

End MoreFunding.

Lemma Fund_success_covers_witness :
  estimateDeficit flat_fee tt
    (mkTx [Some (input_of_utxo (utxo_worth 110))] (Outputs unfunded_tx))
  = Ok 0.
Proof.
  exact (Fund_success_covers
           txid_is_32_bytes flat_fee tt one_exact_utxo 1 (mkState unfunded_tx O [])
           (mkState (mkTx [Some (input_of_utxo (utxo_worth 110))] (Outputs unfunded_tx))
                    1%nat [CallNext 110])
           eq_refl).
Defined.

Lemma Fund_spins_on_empty_answers_witness :
  snd (Fund txid_is_32_bytes flat_fee 5 tt stalling_source (mkState unfunded_tx O []))
  = Fail OutOfFuel
  /\ calls (fst (Fund txid_is_32_bytes flat_fee 5 tt stalling_source
                   (mkState unfunded_tx O [])))
     = repeat (CallNext 110) 5.
Proof.
  destruct (Fund_spins_on_empty_answers
              txid_is_32_bytes flat_fee tt stalling_source 5 110
              (mkState unfunded_tx O []) eq_refl ltac:(discriminate)
              (fun _ _ => eq_refl))
    as (Hsnd & _ & Hcalls).
  split; [exact Hsnd | exact Hcalls].
Defined.

Lemma Fund_refused_identifier_witness :
  Fund txid_is_32_bytes flat_fee 1 tt bad_batch_source (mkState unfunded_tx O [])
  = (mkState (mkTx [Some (input_of_utxo (utxo_worth 60))] (Outputs unfunded_tx))
             1%nat [CallNext 110],
     Fail (Err ErrInvalidTxID)).
Proof.
  refine (Fund_refused_identifier
            txid_is_32_bytes flat_fee tt bad_batch_source 0 0 110 110
            (mkState unfunded_tx O []) (mkState unfunded_tx O []) 1%nat
            [utxo_worth 60] short_utxo [Some (utxo_worth 50)]
            eq_refl (Fund_rounds_O _ _ _ _ _ _) _ eq_refl _ eq_refl).
  - discriminate.
  - repeat first [apply List.Forall_cons | apply List.Forall_nil]. reflexivity.
Defined.

(** ** Filling: what signing leaves as it is *)

Section MoreFilling.

Context {W : Type}.

Lemma FillInput_unsigned (unlocker : option (Unlocker.t W)) (params : UnlockerParams)
      (st : State W) :
  unsigned_tx (tx (fst (FillInput unlocker params st))) = unsigned_tx (tx st).
Proof.
  unfold FillInput. destruct unlocker as [u|]; [| done].
  destruct (Unlocker.UnlockingScript u (world st) (tx st) _) as [w [s | f]]; [| done].
  cbn [called tx].
  pose proof (InsertInputUnlockingScript_unsigned (tx st)
                (InputIdx (if SigHashFlags params =? 0
                           then mkParams (InputIdx params) sighash_AllForkID
                           else params)) s) as Hun.
  by destruct (InsertInputUnlockingScript (tx st) _ s).
Qed.

Lemma FillAllInputs_range_unsigned (ug : UnlockerGetter W) (i : nat)
      (ins : list (option Input)) (st : State W) :
  unsigned_tx (tx (fst (FillAllInputs_range ug i ins st))) = unsigned_tx (tx st).
Proof.
  revert i st. induction ins as [|[x|] ins IH]; intros i st; simpl; try done.
  destruct (ug (world st) (PreviousTxScript x)) as [w [u | f]]; [| done].
  pose proof (FillInput_unsigned u (mkParams (wrap32 (Z.of_nat i)) sighash_AllForkID)
                (called (CallUnlocker (PreviousTxScript x) None) w st)) as Hfill.
  destruct (FillInput u _ _) as [st2 [[] | f]]; [| done].
  rewrite IH. exact Hfill.
Qed.

(** X18: [FillInput] writes nothing but the unlocking script of the input
    that the slot at [InputIdx] points to: the slots and the outputs are as
    they were, an input this slot does not point to is as it was, and no
    input changes in any field but its unlocking script; when it fails, for
    want of an unlocker, by the unlocker's error or at the store, every
    input is as it was. *)
Theorem FillInput_only_the_script (unlocker : option (Unlocker.t W))
        (params : UnlockerParams) (st : Shared.State W) :
  Shared.tx (fst (Shared.FillInput unlocker params st)) = Shared.tx st
  /\ (forall a : address,
         unsigned (Shared.store (fst (Shared.FillInput unlocker params st)) a)
         = unsigned (Shared.store st a))
  /\ (forall a : address,
         Shared.Inputs (Shared.tx st) !! Z.to_nat (InputIdx params) <> Some (Some a) ->
         Shared.store (fst (Shared.FillInput unlocker params st)) a = Shared.store st a)
  /\ (snd (Shared.FillInput unlocker params st) <> Ok tt ->
      forall a : address,
        Shared.store (fst (Shared.FillInput unlocker params st)) a = Shared.store st a).
Proof.
  unfold Shared.FillInput. destruct unlocker as [u|]; [| done].
  destruct (Unlocker.UnlockingScript u (Shared.world st) _ _) as [w [s | f]]; [| done].
  cbn [Shared.called Shared.store Shared.tx].
  assert (InputIdx (if SigHashFlags params =? 0
                    then mkParams (InputIdx params) sighash_AllForkID
                    else params) = InputIdx params) as ->
      by (by destruct (SigHashFlags params =? 0)).
  unfold Shared.InsertInputUnlockingScript, Shared.Store in *.
  destruct (Shared.Inputs (Shared.tx st) !! Z.to_nat (InputIdx params)) as [[a0|]|];
    simpl; repeat split; try done.
  - intros a. destruct (decide (a0 = a)) as [-> | Hne].
    + by rewrite fn_lookup_insert.
    + by rewrite fn_lookup_insert_ne.
  - intros a Ha. apply fn_lookup_insert_ne. by intros ->.
Qed.

(** X19: [FillAllInputs], however it ends, has changed nothing of the
    transaction but unlocking scripts; so the total of the inputs, both
    signature-hash digests, the number of inputs and the outputs are what
    they were before. *)
Theorem FillAllInputs_only_scripts (Sha256 : list byte -> list byte)
        (ug : UnlockerGetter W) (st : State W) :
  unsigned_tx (tx (fst (FillAllInputs ug st))) = unsigned_tx (tx st)
  /\ TotalInputSatoshis (tx (fst (FillAllInputs ug st))) = TotalInputSatoshis (tx st)
  /\ PreviousOutHash Sha256 (tx (fst (FillAllInputs ug st)))
     = PreviousOutHash Sha256 (tx st)
  /\ SequenceHash Sha256 (tx (fst (FillAllInputs ug st))) = SequenceHash Sha256 (tx st)
  /\ InputCount (tx (fst (FillAllInputs ug st))) = InputCount (tx st)
  /\ Outputs (tx (fst (FillAllInputs ug st))) = Outputs (tx st).
Proof.
  pose proof (FillAllInputs_range_unsigned ug 0 (Inputs (tx st)) st) as Hun.
  split; [exact Hun |].
  exact (readers_unsigned Sha256 (tx st) (tx (fst (FillAllInputs ug st))) Hun).
Qed.

(** X20: a transaction with a nil slot among its inputs is never reported
    as filled: whatever the getter and the unlockers do, [FillAllInputs]
    does not return nil. *)
Theorem FillAllInputs_nil_input (ug : UnlockerGetter W) (before : list Input)
        (after : list (option Input)) (outs : list (option Output.t))
        (w : W) (log : list event) :
  snd (FillAllInputs ug (mkState (mkTx ((Some <$> before) ++ None :: after) outs) w log))
  <> Ok tt.
Proof.
  unfold FillAllInputs. cbn [tx Inputs].
  generalize (mkState (mkTx ((Some <$> before) ++ None :: after) outs) w log).
  generalize 0%nat.
  induction before as [|x before IH]; intros i st; simpl; [done |].
  destruct (ug (world st) (PreviousTxScript x)) as [w1 [u | f]]; [| done].
  destruct (FillInput u _ _) as [st2 [[] | f]]; [apply IH | done].
Qed.

End MoreFilling.

(** ** Inputs from the outputs of a previous transaction *)

Section MoreP2PKH.

Variable IsValidTxID : list byte -> bool.
Variable TxIDBytes : Transaction -> result (list byte).
Variable PublicKeyHash : option Script -> result (list byte).
Variable Hash160 : list byte -> list byte.

Local Abbreviation range := (AddP2PKHInputsFromTx_range IsValidTxID PublicKeyHash Hash160).
Local Abbreviation add := (AddP2PKHInputsFromTx IsValidTxID TxIDBytes PublicKeyHash Hash160).
Local Abbreviation picked matchPK :=
  (p2pkh_inputs PublicKeyHash (Hash160 matchPK)).
Local Abbreviation has_hash :=
  (fun o : Output.t => exists h, PublicKeyHash (Output.LockingScript o) = Ok h).

Lemma p2pkh_inputs_cons (h txid : list byte) (i : nat) (o : Output.t)
      (outs : list Output.t) :
  p2pkh_inputs PublicKeyHash h txid i (o :: outs)
  = (if pays_to PublicKeyHash h o then [spending txid (i, o)] else [])
      ++ p2pkh_inputs PublicKeyHash h txid (S i) outs.
Proof.
  unfold p2pkh_inputs. simpl indexed_from.
  destruct (pays_to PublicKeyHash h o) eqn:Hpays.
  - by rewrite filter_cons_True.
  - rewrite filter_cons_False; [done |]. simpl. by rewrite Hpays.
Qed.

(** The loop over outputs that all have a public-key hash, with an
    identifier that is accepted. *)
Lemma AddP2PKHInputsFromTx_range_run (txid matchPK : list byte) (i : nat)
      (outs : list Output.t) (t : Transaction) :
  IsValidTxID txid = true ->
  Forall has_hash outs ->
  range txid matchPK i (Some <$> outs) t
  = (mkTx (Inputs t ++ (Some <$> picked matchPK txid i outs)) (Outputs t), Ok tt).
Proof.
  intros Hvalid Hall. revert i t.
  induction Hall as [|o outs [h Hh] _ IH]; intros i t.
  - simpl. rewrite app_nil_r. by destruct t.
  - rewrite fmap_cons. cbn [AddP2PKHInputsFromTx_range].
    rewrite p2pkh_inputs_cons. unfold pays_to. rewrite Hh.
    destruct (bool_decide (h = Hash160 matchPK)).
    + cbn [FromUTXOs]. unfold PreviousTxIDAdd. cbn [UTXO.TxID]. rewrite Hvalid.
      rewrite IH. simpl. by rewrite <- app_assoc.
    + by rewrite IH.
Qed.

(** X21: when the identifier of the previous transaction is computed and
    accepted and every output of that transaction has a public-key hash,
    [AddP2PKHInputsFromTx] returns nil and has appended one input for each
    output that pays to the hash of the given key, in the order of the
    outputs, and none for the others.  The input carries the identifier of
    the previous transaction, the index of the output, its value and its
    locking script, the sequence number 0xFFFFFFFF and no unlocking script. *)
Theorem AddP2PKHInputsFromTx_picks_matching (t pvsTx : Transaction)
        (prevTxIDBytes : list byte) (outs : list Output.t) (matchPK : list byte) :
  TxIDBytes pvsTx = Ok prevTxIDBytes ->
  Outputs pvsTx = Some <$> outs ->
  IsValidTxID prevTxIDBytes = true ->
  Forall has_hash outs ->
  add t pvsTx matchPK
  = (mkTx (Inputs t ++ (Some <$> picked matchPK prevTxIDBytes 0 outs)) (Outputs t),
     Ok tt).
Proof.
  intros Hid Houts Hvalid Hall. unfold AddP2PKHInputsFromTx. rewrite Hid, Houts.
  by apply AddP2PKHInputsFromTx_range_run.
Qed.

Lemma AddP2PKHInputsFromTx_range_app (txid matchPK : list byte) (i : nat)
      (l1 l2 : list (option Output.t)) (t : Transaction) :
  range txid matchPK i (l1 ++ l2) t
  = match range txid matchPK i l1 t with
    | (t1, Ok _) => range txid matchPK (i + length l1) l2 t1
    | (t1, Fail f) => (t1, Fail f)
    end.
Proof.
  revert i t. induction l1 as [|[o|] l1 IH]; intros i t; cbn [app AddP2PKHInputsFromTx_range].
  - simpl. by rewrite Nat.add_0_r.
  - replace (i + length (Some o :: l1))%nat with (S i + length l1)%nat by (simpl; lia).
    destruct (PublicKeyHash (Output.LockingScript o)) as [h | f]; [| done].
    destruct (bool_decide (h = Hash160 matchPK)); [| apply IH].
    destruct (FromUTXOs IsValidTxID t _) as [t' [[] | f]]; [apply IH | done].
  - done.
Qed.

(** X22: [AddP2PKHInputsFromTx] stops at the first output whose locking
    script has no public-key hash and does not take back what it has
    appended: it returns the error of the script, the inputs for the matching
    outputs before that output are in the transaction, and the outputs after
    it are not looked at. *)
Theorem AddP2PKHInputsFromTx_stops_at_first_failure (t pvsTx : Transaction)
        (prevTxIDBytes : list byte) (good : list Output.t) (bad : Output.t)
        (rest : list Output.t) (matchPK : list byte) (f : failure) :
  TxIDBytes pvsTx = Ok prevTxIDBytes ->
  IsValidTxID prevTxIDBytes = true ->
  Outputs pvsTx = (Some <$> good) ++ Some bad :: (Some <$> rest) ->
  Forall has_hash good ->
  PublicKeyHash (Output.LockingScript bad) = Fail f ->
  add t pvsTx matchPK
  = (mkTx (Inputs t ++ (Some <$> picked matchPK prevTxIDBytes 0 good)) (Outputs t),
     Fail f).
Proof.
  intros Hid Hvalid Houts Hgood Hbad.
  unfold AddP2PKHInputsFromTx. rewrite Hid, Houts.
  rewrite AddP2PKHInputsFromTx_range_app,
    (AddP2PKHInputsFromTx_range_run _ _ _ _ _ Hvalid Hgood).
  cbn [AddP2PKHInputsFromTx_range]. by rewrite Hbad.
Qed.

Lemma AddP2PKHInputsFromTx_range_appends (txid matchPK : list byte) (i : nat)
      (outs : list (option Output.t)) (t : Transaction) :
  exists added : list Input,
    fst (range txid matchPK i outs t) = mkTx (Inputs t ++ (Some <$> added)) (Outputs t)
    /\ Forall (fun x => PreviousTxID x = txid
                        /\ SequenceNumber x = DefaultSequenceNumber
                        /\ UnlockingScript x = None) added
    /\ (length added <= length outs)%nat.
Proof.
  revert i t. induction outs as [|[o|] outs IH]; intros i t;
    cbn [AddP2PKHInputsFromTx_range].
  - exists []. simpl. rewrite app_nil_r. by destruct t.
  - assert (exists added : list Input,
               t = mkTx (Inputs t ++ (Some <$> added)) (Outputs t)
               /\ Forall (fun x => PreviousTxID x = txid
                                   /\ SequenceNumber x = DefaultSequenceNumber
                                   /\ UnlockingScript x = None) added
               /\ (length added <= length (Some o :: outs))%nat) as Hsame.
    { exists []. simpl. rewrite app_nil_r. repeat split; [by destruct t | done | lia]. }
    destruct (PublicKeyHash (Output.LockingScript o)) as [h | f]; [| exact Hsame].
    destruct (bool_decide (h = Hash160 matchPK)).
    + cbn [FromUTXOs]. unfold PreviousTxIDAdd. cbn [UTXO.TxID].
      destruct (IsValidTxID txid); [| exact Hsame].
      set (x := mkInput txid _ _ _ _ _).
      destruct (IH (S i) (addInput t (Some x))) as (added & Hfst & Hall & Hlen).
      exists (x :: added). rewrite Hfst. simpl. rewrite <- app_assoc.
      repeat split; [by constructor | lia].
    + destruct (IH (S i) t) as (added & Hfst & Hall & Hlen).
      exists added. repeat split; [done.. | simpl; lia].
  - exists []. simpl. rewrite app_nil_r. repeat split; [by destruct t | done | lia].
Qed.

(** X24: however [AddP2PKHInputsFromTx] ends, it has only appended inputs:
    the inputs that were there and the outputs are as they were, there is
    at most one new input per output of the previous transaction, and every
    new input carries the identifier of the previous transaction, the
    sequence number 0xFFFFFFFF and no unlocking script. *)
Theorem AddP2PKHInputsFromTx_only_appends (t pvsTx : Transaction) (matchPK : list byte) :
  exists added : list Input,
    fst (add t pvsTx matchPK) = mkTx (Inputs t ++ (Some <$> added)) (Outputs t)
    /\ Forall (fun x => TxIDBytes pvsTx = Ok (PreviousTxID x)
                        /\ SequenceNumber x = 0xFFFFFFFF
                        /\ UnlockingScript x = None) added
    /\ (length added <= length (Outputs pvsTx))%nat.
Proof.
  unfold AddP2PKHInputsFromTx.
  destruct (TxIDBytes pvsTx) as [txid | f].
  - destruct (AddP2PKHInputsFromTx_range_appends txid matchPK 0 (Outputs pvsTx) t)
      as (added & Hfst & Hall & Hlen).
    exists added. repeat split; [done | | done].
    eapply List.Forall_impl; [| exact Hall]. intros x (-> & Hseq & Hscript). done.
  - exists []. simpl. rewrite app_nil_r. repeat split; [by destruct t | done | lia].
Qed.

End MoreP2PKH.

Lemma AddP2PKHInputsFromTx_picks_matching_witness :
  AddP2PKHInputsFromTx txid_is_32_bytes sample_TxIDBytes sample_PublicKeyHash
    sample_Hash160 empty_tx paying_tx [0x07]
  = (mkTx [Some (mkInput (repeat 0x33 32) 10 (p2pkh_script 0x07) None 0 0xFFFFFFFF);
           Some (mkInput (repeat 0x33 32) 30 (p2pkh_script 0x07) None 2 0xFFFFFFFF)]
          [],
     Ok tt).
Proof.
  refine (AddP2PKHInputsFromTx_picks_matching
            txid_is_32_bytes sample_TxIDBytes sample_PublicKeyHash sample_Hash160
            empty_tx paying_tx (repeat 0x33 32)
            [Output.Build 10 (p2pkh_script 0x07); Output.Build 20 (p2pkh_script 0x08);
             Output.Build 30 (p2pkh_script 0x07)]
            [0x07] eq_refl eq_refl eq_refl _).
  repeat first [apply List.Forall_cons | apply List.Forall_nil];
    eexists; reflexivity.
Defined.

Lemma AddP2PKHInputsFromTx_stops_at_first_failure_witness :
  AddP2PKHInputsFromTx txid_is_32_bytes sample_TxIDBytes sample_PublicKeyHash
    sample_Hash160 empty_tx mixed_tx [0x07]
  = (mkTx [Some (mkInput (repeat 0x33 32) 10 (p2pkh_script 0x07) None 0 0xFFFFFFFF)] [],
     Fail (Err (External "not a P2PKH"))).
Proof.
  refine (AddP2PKHInputsFromTx_stops_at_first_failure
            txid_is_32_bytes sample_TxIDBytes sample_PublicKeyHash sample_Hash160
            empty_tx mixed_tx (repeat 0x33 32)
            [Output.Build 10 (p2pkh_script 0x07)]
            (Output.Build 20 (Some [0x6a]))
            [Output.Build 30 (p2pkh_script 0x07)]
            [0x07] (Err (External "not a P2PKH")) eq_refl eq_refl eq_refl _ eq_refl).
  repeat first [apply List.Forall_cons | apply List.Forall_nil];
    eexists; reflexivity.
Defined.

(** ** What [From] has stored when it returns nil *)

Lemma fromHexChar_range (c : ascii) (d : Z) : fromHexChar c = Some d -> 0 <= d < 16.
Proof.
  unfold fromHexChar.
  repeat match goal with
         | |- context [?a <=? ?b] => destruct (Z.leb_spec a b)
         end; simpl; intros [= <-]; lia.
Qed.

Lemma byte_of_digits (a b : Z) :
  0 <= a < 16 -> 0 <= b < 16 -> is_byte (Z.lor (Z.shiftl a 4) b).
Proof.
  intros Ha Hb. unfold is_byte.
  assert (Z.land (Z.shiftl a 4) b = 0) as Hland.
  { apply Z.bits_inj'. intros n Hn. rewrite Z.land_spec, Z.bits_0.
    destruct (Z.ltb_spec n 4).
    - rewrite Z.shiftl_spec by lia. by rewrite (Z.testbit_neg_r a (n - 4)) by lia.
    - rewrite <- (Z.mod_small b (2 ^ 4)) by lia.
      rewrite Z.mod_pow2_bits_high by lia. apply andb_false_r. }
  rewrite <- Z.lxor_lor, <- Z.add_nocarry_lxor by exact Hland.
  rewrite Z.shiftl_mul_pow2 by lia. lia.
Qed.

Lemma hex_DecodeString_bytes (s : string) (bs : list byte) :
  hex_DecodeString s = Ok bs ->
  String.length s = (2 * length bs)%nat /\ Forall is_byte bs.
Proof.
  revert s. induction bs as [|b bs IH]; intros s Hs.
  - destruct s as [|p [|q rest]]; simpl in Hs; [done | |].
    + by destruct (fromHexChar p).
    + destruct (fromHexChar p), (fromHexChar q), (hex_DecodeString rest); done.
  - destruct s as [|p [|q rest]]; simpl in Hs; [done | |].
    + by destruct (fromHexChar p).
    + destruct (fromHexChar p) as [a|] eqn:Hp; [| done].
      destruct (fromHexChar q) as [c|] eqn:Hq; [| done].
      destruct (hex_DecodeString rest) as [bs' | f] eqn:Hrest; [| done].
      injection Hs as <- <-.
      destruct (IH rest Hrest) as [Hlen Hbytes].
      split; [simpl; lia |].
      constructor; [| done].
      apply byte_of_digits; by eapply fromHexChar_range.
Qed.

Section Stored.

Variable IsValidTxID : list byte -> bool.

(** X25: [From] returns nil only for well-formed text, and what it has
    appended is what the text says: the identifier and the locking script of
    the new input are the bytes the two texts decode to, two hexadecimal
    digits per byte, and the identifier has passed the check on
    identifiers. *)
Theorem From_stores_what_it_decoded (t t' : Transaction) (prevTxID : string) (vout : Z)
        (prevTxLockingScript : string) (satoshis : Z) :
  From IsValidTxID t prevTxID vout prevTxLockingScript satoshis = (t', Ok tt) ->
  exists pti pts : list byte,
    t' = mkTx (Inputs t ++ [Some (mkInput pti satoshis (Some pts) None vout 0xFFFFFFFF)])
              (Outputs t)
    /\ hex_DecodeString prevTxID = Ok pti
    /\ NewFromHexString prevTxLockingScript = Ok pts
    /\ IsValidTxID pti = true
    /\ String.length prevTxID = (2 * length pti)%nat
    /\ String.length prevTxLockingScript = (2 * length pts)%nat
    /\ Forall is_byte pti /\ Forall is_byte pts.
Proof.
  unfold From, NewFromHexString.
  destruct (hex_DecodeString prevTxLockingScript) as [pts | f] eqn:Hscript; [| done].
  destruct (hex_DecodeString prevTxID) as [pti | f] eqn:Hid; [| done].
  simpl. unfold PreviousTxIDAdd.
  destruct (IsValidTxID pti) eqn:Hvalid; [| done].
  intros [= <-]. exists pti, pts.
  destruct (hex_DecodeString_bytes _ _ Hid) as [Hlen1 Hbytes1].
  destruct (hex_DecodeString_bytes _ _ Hscript) as [Hlen2 Hbytes2].
  by repeat split.
Qed.

End Stored.

Lemma From_stores_what_it_decoded_witness :
  exists pti pts : list byte,
    sample_tx = mkTx [Some (mkInput pti 1500 (Some pts) None 0 0xFFFFFFFF)] []
    /\ length pti = 32%nat /\ length pts = 32%nat.
Proof.
  destruct (From_stores_what_it_decoded
              txid_is_32_bytes empty_tx sample_tx sample_txid_hex 0 sample_script_hex 1500
              eq_refl)
    as (pti & pts & Htx & _ & _ & _ & Hlen1 & Hlen2 & _).
  exists pti, pts. simpl in Hlen1, Hlen2. repeat split; [exact Htx | lia | lia].
Defined.

Lemma From_round_trip_witness :
  From txid_is_32_bytes empty_tx (hex_EncodeToString (repeat 0x11 32)) 0
       (hex_EncodeToString [0x76; 0xa9]) 1500
  = (mkTx [Some (mkInput (repeat 0x11 32) 1500 (Some [0x76; 0xa9]) None 0 0xFFFFFFFF)] [],
     Ok tt).
Proof.
  refine (From_round_trip txid_is_32_bytes empty_tx (repeat 0x11 32) [0x76; 0xa9] 0 1500
            _ _ eq_refl);
    cbv [repeat];
    repeat first [apply List.Forall_cons | apply List.Forall_nil];
    unfold is_byte; lia.
Defined.
